(** * cameto: pointer-chasing cache probes (main.cpp)

    A shallow embedding of the measurement core of [main.cpp]
    ([mkTestBuffer], [touchTestBuffer], [touchTestBufferTimed],
    [tryCacheLevelSizes], [selectCacheSize], [calcCacheLineSize]) and the
    properties of the chain it builds, of its traversals and of its two
    inference routines.

    Modelling choices.
    - Target LP64: [size_t] is an unsigned 64-bit integer, [long long] a
      signed 64-bit integer, [sizeof(void* )] is 8.  Integers are [Z] and
      every conversion and operation is written with its wrap-around
      (two's complement for [long long]).
    - A slot holds null or the address of a slot of the same buffer, which
      is kept as the index of that slot.
    - A run ends in a value, in a failed [assert], in undefined behaviour
      (a null or out-of-range access, reading the end of an empty range) or
      in the [std::length_error] of a vector asked to hold, or to reserve,
      more than [max_size()] elements.
    - Memory is not bounded otherwise: an allocation of at most
      [max_size()] elements succeeds, so [std::bad_alloc] has no outcome,
      and the replaced [operator new], which only aligns what it
      allocates, is not modelled.  What is stated of a run that allocates
      is stated of the runs whose allocations succeed.
    - The clock is an oracle: the sequence of readings of
      [high_resolution_clock::now()]; every property is stated for all
      clocks.
    - Loops whose bound is not evident run on fuel; the fuel given is proved
      to be enough ([mkTestBuffer_total], [tryCacheLevelSizes_total],
      [selectCacheSize_total], [calcCacheLineSize_total]). *)

From Stdlib Require Import ZArith Lia List Bool.
From stdpp Require Import base list.
Import ListNotations.

Local Open Scope Z_scope.

(** ** Machine integers *)

Module Int.

Definition modulus : Z := 2 ^ 64.
Definition half : Z := 2 ^ 63.

(** Conversion to [size_t] (unsigned, 64 bits). *)
Definition to_size_t (z : Z) : Z := z mod modulus.

(** Conversion to [long long] (signed, 64 bits, two's complement). *)
Definition to_llong (z : Z) : Z := (z + half) mod modulus - half.

Definition LLONG_MAX : Z := half - 1.

Definition is_size_t (z : Z) : Prop := 0 <= z < modulus.
Definition is_llong (z : Z) : Prop := - half <= z < half.

(** [sizeof(void* )] *)
Definition sizeof_ptr : Z := 8.

End Int.

Definition KB : Z := 1024.

(** ** Outcomes of a run *)

Inductive ub : Type :=
| NullDeref      (* [*p] with [p] null *)
| OutOfBounds    (* [v[i]] with [i >= v.size()] *)
| EmptyRange.    (* [*it] with [it] the end of an empty range *)

Inductive outcome (A : Type) : Type :=
| Ok (a : A)
| AssertFailed            (* [assert] aborted the process *)
| Undefined (why : ub)    (* undefined behaviour *)
| Thrown                  (* [std::length_error] of a vector constructor or [reserve] *)
| OutOfFuel.              (* the model ran out of fuel, never the program *)

Arguments Ok {A} a.
Arguments AssertFailed {A}.
Arguments Undefined {A} why.
Arguments Thrown {A}.
Arguments OutOfFuel {A}.

Definition bind {A B : Type} (m : outcome A) (k : A -> outcome B) : outcome B :=
  match m with
  | Ok a => k a
  | AssertFailed => AssertFailed
  | Undefined why => Undefined why
  | Thrown => Thrown
  | OutOfFuel => OutOfFuel
  end.

Notation "x <- m ;; k" := (bind m (fun x => k))
  (at level 100, m at next level, right associativity).

(** ** Vectors and slots *)

(** The value of a [void*] slot: null, or the address of slot [i] of the
    buffer it lives in. *)
Inductive ptr : Type :=
| Null
| Slot (i : nat).

Definition vec_size {A : Type} (v : list A) : Z := Z.of_nat (length v).

(** [v[i]] read. *)
Definition vec_at {A : Type} (v : list A) (i : Z) : outcome A :=
  if i <? 0 then Undefined OutOfBounds
  else match v !! Z.to_nat i with
       | Some x => Ok x
       | None => Undefined OutOfBounds
       end.

(** [v[i] = x]. *)
Definition vec_set {A : Type} (v : list A) (i : Z) (x : A) : outcome (list A) :=
  if (0 <=? i) && (i <? vec_size v) then Ok (<[Z.to_nat i := x]> v)
  else Undefined OutOfBounds.

(** [&v[i]]. *)
Definition addr_of (v : list ptr) (i : Z) : outcome ptr :=
  if (0 <=? i) && (i <? vec_size v) then Ok (Slot (Z.to_nat i))
  else Undefined OutOfBounds.

(** [*p] for a pointer into [v]. *)
Definition deref (v : list ptr) (p : ptr) : outcome ptr :=
  match p with
  | Null => Undefined NullDeref
  | Slot i => match v !! i with
              | Some q => Ok q
              | None => Undefined OutOfBounds
              end
  end.

(** [std::vector<T>::max_size()] for [T = void*]: [PTRDIFF_MAX / sizeof(T)].
    A longer vector would span more than [PTRDIFF_MAX] bytes; its
    constructor throws [std::length_error].  A vector of at most that many
    elements is taken to be allocatable: running out of memory
    ([std::bad_alloc]) is not modelled, and what is stated about a run that
    allocates is stated for a run whose allocations succeed. *)
Definition vector_max_size : Z := (Int.half - 1) / Int.sizeof_ptr.

(** ** mkTestBuffer *)

(** The loop of [mkTestBuffer]:
    [for (long long i = size - 1, j = size - 1 - step; j >= 0; i = j, j -= step)]. *)
Fixpoint mkTestBuffer_loop (fuel : nat) (size step i j : Z) (buffer : list ptr)
  : outcome (list ptr) :=
  if 0 <=? j then
    match fuel with
    | O => OutOfFuel
    | S fuel' =>
        pj <- addr_of buffer j ;;
        b1 <- vec_set buffer i pj ;;
        pl <- addr_of b1 (Int.to_size_t (size - 1)) ;;
        b2 <- vec_set b1 j pl ;;
        mkTestBuffer_loop fuel' size step j (Int.to_llong (j - step)) b2
    end
  else Ok buffer.

Definition mkTestBuffer (size step : Z) : outcome (list ptr) :=
  if negb ((0 <? size) && (0 <? step)) then AssertFailed
  else if vector_max_size <? size then Thrown
  else
    let buffer := replicate (Z.to_nat size) Null in
    mkTestBuffer_loop (Z.to_nat size) size step
      (Int.to_llong (Int.to_size_t (size - 1)))
      (Int.to_llong (Int.to_size_t (size - 1 - step)))
      buffer.

(** ** touchTestBuffer and touchTestBufferTimed *)

(** [n] times [pos = *pos]. *)
Fixpoint hops (buffer : list ptr) (n : nat) (pos : ptr) : outcome ptr :=
  match n with
  | O => Ok pos
  | S n' => pos' <- deref buffer pos ;; hops buffer n' pos'
  end.

Definition touchTestBuffer (buffer : list ptr) (nTouches : Z) : outcome ptr :=
  pos <- vec_at buffer (Int.to_size_t (vec_size buffer - 1)) ;;
  pos <- hops buffer (Z.to_nat nTouches) pos ;;
  deref buffer pos.

(** The clock: [clock k] is the reading of the [k]-th call of
    [high_resolution_clock::now()]; a run threads the number of calls made
    so far. *)
Definition clock : Type := nat -> Z.

(** [(end - start).count()] *)
Definition elapsed (start stop : Z) : Z := Int.to_llong (stop - start).

Fixpoint timed_hops (clk : clock) (buffer : list ptr) (n : nat)
    (t : nat) (pos : ptr) (times : list Z) : outcome (list Z * ptr * nat) :=
  match n with
  | O => Ok (times, pos, t)
  | S n' =>
      let start := clk t in
      pos' <- deref buffer pos ;;
      let stop := clk (S t) in
      timed_hops clk buffer n' (S (S t)) pos' (times ++ [elapsed start stop])
  end.

(** [times.reserve(nTouches)] throws [std::length_error] beyond the largest
    size of a [std::vector<long long>], which is that of a
    [std::vector<void* >]: both element types take 8 bytes. *)
Definition touchTestBufferTimed (clk : clock) (t : nat)
    (buffer : list ptr) (nTouches : Z) : outcome (list Z * ptr * nat) :=
  pos <- vec_at buffer (Int.to_size_t (vec_size buffer - 1)) ;;
  if vector_max_size <? nTouches then Thrown
  else
    r <- timed_hops clk buffer (Z.to_nat nTouches) t pos [] ;;
    let '(times, pos, t') := r in
    landing <- deref buffer pos ;;
    Ok (times, landing, t').

(** ** tryCacheLevelSizes *)

Record RawLevelInfo : Type := {
  arraySizeBytes : Z;   (* size_t *)
  timeNanos : Z         (* long long *)
}.

Definition nTouches : Z := 1000000.

(** The stride handed to [mkTestBuffer] in a round over [size] slots:
    [std::max(size_t(1), size / nTouches)]. *)
Definition probe_stride (size : Z) : Z := Z.max 1 (size / nTouches).

(** The body of the probing loop for one slot count. *)
Definition probe_round (clk : clock) (t : nat) (size : Z)
  : outcome (RawLevelInfo * nat) :=
  buffer <- mkTestBuffer size (probe_stride size) ;;
  dummyPtr1 <- touchTestBuffer buffer nTouches ;;
  let start := clk t in
  dummyPtr2 <- touchTestBuffer buffer nTouches ;;
  let stop := clk (S t) in
  Ok ({| arraySizeBytes := Int.to_size_t (size * Int.sizeof_ptr);
         timeNanos := elapsed start stop |}, S (S t)).

(** What a round asks of the builder and of the traversal; the loop records
    it for every round it enters (ghost state, read by no computation). *)
Record probe : Type := {
  probe_size : Z;
  probe_step : Z;
  probe_touches : Z
}.

(** [for (size_t size = minSize; size <= maxSize; size += sizeStep)] *)
Fixpoint tryCacheLevelSizes_loop (fuel : nat) (clk : clock) (t : nat)
    (size maxSize sizeStep : Z) (infos : list RawLevelInfo) (log : list probe)
  : list probe * outcome (list RawLevelInfo * nat) :=
  if size <=? maxSize then
    match fuel with
    | O => (log, OutOfFuel)
    | S fuel' =>
        let log' := log ++ [{| probe_size := size;
                               probe_step := probe_stride size;
                               probe_touches := nTouches |}] in
        match probe_round clk t size with
        | Ok (info, t') =>
            tryCacheLevelSizes_loop fuel' clk t'
              (Int.to_size_t (size + sizeStep)) maxSize sizeStep
              (infos ++ [info]) log'
        | AssertFailed => (log', AssertFailed)
        | Undefined why => (log', Undefined why)
        | Thrown => (log', Thrown)
        | OutOfFuel => (log', OutOfFuel)
        end
    end
  else (log, Ok (infos, t)).

Definition tryCacheLevelSizes_run (clk : clock) (t : nat)
    (minSizeBytes maxSizeBytes : Z)
  : list probe * outcome (list RawLevelInfo * nat) :=
  let minSize := minSizeBytes / Int.sizeof_ptr in
  let maxSize := maxSizeBytes / Int.sizeof_ptr in
  let sizeStep := minSize in
  tryCacheLevelSizes_loop (S (Z.to_nat maxSize)) clk t minSize maxSize sizeStep [] [].

Definition tryCacheLevelSizes (clk : clock) (t : nat)
    (minSizeBytes maxSizeBytes : Z) : outcome (list RawLevelInfo * nat) :=
  snd (tryCacheLevelSizes_run clk t minSizeBytes maxSizeBytes).

(** ** selectCacheSize *)

(** [for (size_t k = i; k < ...; ++k)], [n] iterations from [i]. *)
Fixpoint for_loop {S : Type} (n : nat) (i : Z) (body : Z -> S -> outcome S) (s : S)
  : outcome S :=
  match n with
  | O => Ok s
  | S n' => s' <- body i s ;; for_loop n' (i + 1) body s'
  end.

Definition for_range {S : Type} (lo hi : Z) (body : Z -> S -> outcome S) (s : S)
  : outcome S :=
  for_loop (Z.to_nat (hi - lo)) lo body s.

(** [std::max_element(first, last, comp)]: the first largest element;
    [None] is the end iterator of an empty range. *)
Definition keep_largest {A : Type} (comp : A -> A -> bool) (largest y : A) : A :=
  if comp largest y then y else largest.

Definition max_element {A : Type} (comp : A -> A -> bool) (l : list A) : option A :=
  match l with
  | [] => None
  | x :: rest => Some (fold_left (keep_largest comp) rest x)
  end.

Definition diffs_body (infos : list RawLevelInfo) (i : Z) (diffs : list RawLevelInfo)
  : outcome (list RawLevelInfo) :=
  prev <- vec_at infos (i - 1) ;;
  curr <- vec_at infos i ;;
  Ok (diffs ++ [{| arraySizeBytes := arraySizeBytes curr;
                   timeNanos := Int.to_llong (timeNanos curr - timeNanos prev) |}]).

Definition window_sum_body (diffs : list RawLevelInfo) (j : Z) (sum : Z) : outcome Z :=
  d <- vec_at diffs j ;;
  Ok (Int.to_llong (sum + timeNanos d)).

(** [for (size_t i = windowSize - 1; i < diffs.size() - 2; ++i)]; [bound] is
    [diffs.size() - 2] in [size_t]. *)
Fixpoint windowed_loop (fuel : nat) (diffs : list RawLevelInfo) (windowSize : Z)
    (i bound : Z) (windowed : list RawLevelInfo) : outcome (list RawLevelInfo) :=
  if i <? bound then
    match fuel with
    | O => OutOfFuel
    | S fuel' =>
        d <- vec_at diffs i ;;
        sum <- for_range (Int.to_size_t (i + 1 - windowSize)) i
                 (window_sum_body diffs) (timeNanos d) ;;
        windowed_loop fuel' diffs windowSize (i + 1) bound
          (windowed ++ [{| arraySizeBytes := arraySizeBytes d; timeNanos := sum |}])
    end
  else Ok windowed.

(** The [windowed] vector of [selectCacheSize], as it is when
    [std::max_element] is called. *)
Definition windowedSeries (infos : list RawLevelInfo) (windowSize : Z)
  : outcome (list RawLevelInfo) :=
  diffs <- for_range 1 (vec_size infos) (diffs_body infos) [] ;;
  windowed_loop (S (length diffs)) diffs windowSize
    (Int.to_size_t (windowSize - 1)) (Int.to_size_t (vec_size diffs - 2)) [].

Definition selectCacheSize (infos : list RawLevelInfo) (windowSize : Z) : outcome Z :=
  if negb (2 <=? windowSize) then AssertFailed
  else
    windowed <- windowedSeries infos windowSize ;;
    match max_element (fun x y => timeNanos x <? timeNanos y) windowed with
    | Some x => Ok (arraySizeBytes x)
    | None => Undefined EmptyRange
    end.

(** ** calcCacheLineSize *)

(** [diffs.push_back( *it - *(it - 1))] for [it] from [begin() + 1]. *)
Fixpoint jumps_from (prev : Z) (rest : list Z) : list Z :=
  match rest with
  | [] => []
  | x :: rest' => Int.to_llong (x - prev) :: jumps_from x rest'
  end.

Definition jumps (times : list Z) : outcome (list Z) :=
  match times with
  | [] => Undefined OutOfBounds   (* [begin() + 1] is past the end *)
  | x :: rest => Ok (jumps_from x rest)
  end.

(** [lastMaxJump != LLONG_MAX && max < lastMaxJump / 10] *)
Definition drop_seen (lastMaxJump max : Z) : bool :=
  negb (lastMaxJump =? Int.LLONG_MAX) && (max <? Z.quot lastMaxJump 10).

(** [for (step = 1; step < size; step *= 2)]; [trace] records the stride and
    the maximum jump of every iteration (ghost state). *)
Fixpoint calcCacheLineSize_loop (fuel : nat) (clk : clock) (t : nat)
    (size step lastMaxJump : Z) (trace : list (Z * Z)) : outcome (list (Z * Z) * Z) :=
  if step <? size then
    match fuel with
    | O => OutOfFuel
    | S fuel' =>
        buffer <- mkTestBuffer size step ;;
        r <- touchTestBufferTimed clk t buffer (size / step) ;;
        let '(times, _, t') := r in
        diffs <- jumps times ;;
        max <- match max_element Z.ltb diffs with
               | Some m => Ok m
               | None => Undefined EmptyRange
               end ;;
        let trace' := trace ++ [(step, max)] in
        if drop_seen lastMaxJump max
        then Ok (trace', Int.to_size_t (step * Int.sizeof_ptr))
        else calcCacheLineSize_loop fuel' clk t' size (Int.to_size_t (step * 2)) max trace'
    end
  else Ok (trace, Int.to_size_t (step * Int.sizeof_ptr)).

Definition calcCacheLineSize_run (clk : clock) (t : nat) (cacheSizeBytes : Z)
  : outcome (list (Z * Z) * Z) :=
  let size := cacheSizeBytes / Int.sizeof_ptr in
  calcCacheLineSize_loop 65 clk t size 1 Int.LLONG_MAX [].

Definition calcCacheLineSize (clk : clock) (t : nat) (cacheSizeBytes : Z) : outcome Z :=
  r <- calcCacheLineSize_run clk t cacheSizeBytes ;; Ok (snd r).

(** ** The chain the builder leaves *)

(** Slot [k] is written by the loop of [mkTestBuffer] entered at index [i]:
    the indices at or below [i] in the residue class of [i] modulo [step]. *)
Definition rewritten (step i : Z) (k : nat) : bool :=
  (step <=? i) && (Z.of_nat k <=? i) && (Z.of_nat k mod step =? i mod step).

(** The link a rewritten slot ends with: [step] slots down, and back to the
    last slot from the lowest one. *)
Definition back_link (size step : Z) (k : nat) : ptr :=
  if Z.of_nat k <? step then Slot (Z.to_nat (size - 1))
  else Slot (Z.to_nat (Z.of_nat k - step)).

Definition chain_link (size step : Z) (k : nat) : ptr :=
  if rewritten step (size - 1) k then back_link size step k else Null.

(** The number of slots on the chain and the [t]-th of them, counted from
    the last slot of the buffer. *)
Definition cycle_len (size step : Z) : Z := (size - 1) / step + 1.

Definition cycle_slot (size step : Z) (t : Z) : nat :=
  Z.to_nat (size - 1 - (t mod cycle_len size step) * step).

(** The designated entry: the last slot. *)
Definition entry (size : Z) : ptr := Slot (Z.to_nat (size - 1)).

(** ** The series inside selectCacheSize *)

(** [f lo; f (lo + 1); ...], [count] entries. *)
Fixpoint tabulate {A : Type} (f : Z -> A) (lo : Z) (count : nat) : list A :=
  match count with
  | O => []
  | S count' => f lo :: tabulate f (lo + 1) count'
  end.

Definition info_at (infos : list RawLevelInfo) (p : Z) : RawLevelInfo :=
  nth (Z.to_nat p) infos {| arraySizeBytes := 0; timeNanos := 0 |}.

(** The differenced point for raw point [p >= 1]. *)
Definition diff_at (infos : list RawLevelInfo) (p : Z) : RawLevelInfo :=
  {| arraySizeBytes := arraySizeBytes (info_at infos p);
     timeNanos := Int.to_llong (timeNanos (info_at infos p)
                                - timeNanos (info_at infos (p - 1))) |}.

(** The windowed point for raw point [p >= windowSize]: the sum of the
    [windowSize] differences ending at [p] telescopes. *)
Definition window_at (infos : list RawLevelInfo) (windowSize p : Z) : RawLevelInfo :=
  {| arraySizeBytes := arraySizeBytes (info_at infos p);
     timeNanos := Int.to_llong (timeNanos (info_at infos p)
                                - timeNanos (info_at infos (p - windowSize))) |}.

Fixpoint strictly_increasing (l : list Z) : Prop :=
  match l with
  | [] => True
  | x :: rest =>
      match rest with
      | [] => True
      | y :: _ => x < y
      end /\ strictly_increasing rest
  end.

Fixpoint non_decreasing (l : list Z) : Prop :=
  match l with
  | [] => True
  | x :: rest =>
      match rest with
      | [] => True
      | y :: _ => x <= y
      end /\ non_decreasing rest
  end.

(** ** The points a probing run records *)

(** The raw points of [count] successful rounds from slot count [size] on,
    the clock having been read [t] times before. *)
Fixpoint rounds (clk : clock) (count : nat) (t : nat) (size sizeStep : Z)
  : list RawLevelInfo :=
  match count with
  | O => []
  | S count' =>
      {| arraySizeBytes := size * Int.sizeof_ptr;
         timeNanos := elapsed (clk t) (clk (S t)) |}
      :: rounds clk count' (S (S t)) (size + sizeStep) sizeStep
  end.

(** The value of the counter [i] when the loop [pos = *pos] of a traversal
    is left, by its test or by a fault: the hops performed from [pos]. *)
Fixpoint hops_done (buffer : list ptr) (n : nat) (pos : ptr) : nat :=
  match n with
  | O => O
  | S n' =>
      match deref buffer pos with
      | Ok pos' => S (hops_done buffer n' pos')
      | _ => O
      end
  end.

(** The hops [touchTestBuffer(buffer, nTouches)] performs. *)
Definition touches_performed (buffer : list ptr) (nTouches : Z) : nat :=
  match vec_at buffer (Int.to_size_t (vec_size buffer - 1)) with
  | Ok pos => hops_done buffer (Z.to_nat nTouches) pos
  | _ => O
  end.


(** ** The strides of calcCacheLineSize *)

(** No stride of the series shows a maximum jump below a tenth of the one
    before it, [last] being the maximum jump before the series. *)
Fixpoint no_drop_from (last : Z) (maxima : list Z) : bool :=
  match maxima with
  | [] => true
  | m :: rest => negb (drop_seen last m) && no_drop_from m rest
  end.

(** The first power of two that is at least [size]: the stride the doubling
    loop stops at. *)
Definition exit_stride (size : Z) : Z := 2 ^ Z.log2_up size.

(** Spec side, the final stride tried of the claim: the last power of two
    strictly below [size]. *)
Definition last_stride_below (size : Z) : Z := 2 ^ (Z.log2_up size - 1).

(** The same raw point measured by a clock that is [c] ticks ahead. *)
Definition shift_time (c : Z) (x : RawLevelInfo) : RawLevelInfo :=
  {| arraySizeBytes := arraySizeBytes x; timeNanos := timeNanos x + c |}.

(** [lastMaxJump] after the strides of a series, [last] being its value
    before them. *)
Fixpoint last_jump (last : Z) (maxima : list Z) : Z :=
  match maxima with
  | [] => last
  | m :: rest => last_jump m rest
  end.

(** ** main *)

(** What [main] computes and prints: the raw points (one line each), the
    cache size, the cache line size; and its exit code.  The text written to
    [std::cout] (with sizes printed as [double]) is not modelled. *)
Record report : Type := {
  rawLevels : list RawLevelInfo;
  cacheSize : Z;
  cacheLineSize : Z;
  exitCode : Z
}.

Definition main (clk : clock) : outcome report :=
  r <- tryCacheLevelSizes clk 0 (8 * KB) (256 * KB) ;;
  let '(rawLevels, t) := r in
  cacheSize <- selectCacheSize rawLevels 3 ;;
  cacheLineSize <- calcCacheLineSize clk t cacheSize ;;
  Ok {| rawLevels := rawLevels; cacheSize := cacheSize;
        cacheLineSize := cacheLineSize; exitCode := 0 |}.

(** * Properties *)

(** ** Machine integers *)

Section IntFacts.

Lemma modulus_eq : Int.modulus = 18446744073709551616.
Proof. reflexivity. Qed.

Lemma half_eq : Int.half = 9223372036854775808.
Proof. reflexivity. Qed.

Lemma vector_max_size_eq : vector_max_size = 1152921504606846975.
Proof. reflexivity. Qed.

Lemma to_size_t_id z : Int.is_size_t z -> Int.to_size_t z = z.
Proof. intros H. apply Z.mod_small. exact H. Qed.

Lemma to_llong_id z : Int.is_llong z -> Int.to_llong z = z.
Proof.
  unfold Int.is_llong, Int.to_llong. rewrite modulus_eq, half_eq. intros H.
  rewrite Z.mod_small; lia.
Qed.

Lemma to_llong_range z : Int.is_llong (Int.to_llong z).
Proof.
  unfold Int.is_llong, Int.to_llong.
  pose proof (Z.mod_pos_bound (z + Int.half) Int.modulus) as H.
  rewrite modulus_eq, half_eq in *. lia.
Qed.

(** A huge unsigned value read as [long long] is the value less [2^64]. *)
Lemma to_llong_high z :
  Int.half <= z < Int.modulus -> Int.to_llong z = z - Int.modulus.
Proof.
  unfold Int.to_llong. rewrite modulus_eq, half_eq. intros H.
  replace (z + 9223372036854775808)
    with ((z - 9223372036854775808) + 1 * 18446744073709551616) by lia.
  rewrite Z.mod_add by lia. rewrite Z.mod_small; lia.
Qed.

Lemma to_size_t_neg z :
  - Int.modulus <= z < 0 -> Int.to_size_t z = z + Int.modulus.
Proof.
  unfold Int.to_size_t. rewrite modulus_eq. intros H.
  replace z with ((z + 18446744073709551616) + (-1) * 18446744073709551616) at 1 by lia.
  rewrite Z.mod_add by lia. rewrite Z.mod_small; lia.
Qed.

(** Signed addition is modular: an intermediate wrap does not show. *)
Lemma to_llong_add_l a b : Int.to_llong (Int.to_llong a + b) = Int.to_llong (a + b).
Proof.
  unfold Int.to_llong.
  replace ((a + Int.half) mod Int.modulus - Int.half + b + Int.half)
    with ((a + Int.half) mod Int.modulus + b) by lia.
  rewrite Z.add_mod_idemp_l by (rewrite modulus_eq; lia).
  f_equal. f_equal. lia.
Qed.

Lemma to_llong_add_r a b : Int.to_llong (a + Int.to_llong b) = Int.to_llong (a + b).
Proof. rewrite (Z.add_comm a), to_llong_add_l. f_equal. lia. Qed.

End IntFacts.

(** ** Outcomes *)

Lemma bind_ok {A B : Type} (m : outcome A) (k : A -> outcome B) (b : B) :
  bind m k = Ok b -> exists a, m = Ok a /\ k a = Ok b.
Proof. destruct m; simpl; intros H; try discriminate. eauto. Qed.

Lemma bind_not_fuel {A B : Type} (m : outcome A) (k : A -> outcome B) :
  m <> OutOfFuel -> (forall a, m = Ok a -> k a <> OutOfFuel) -> bind m k <> OutOfFuel.
Proof. destruct m; simpl; intros H1 H2; try congruence. apply H2. reflexivity. Qed.

(** ** Vectors *)

Lemma vec_at_ok {A : Type} (v : list A) (i : Z) (x : A) :
  0 <= i -> v !! Z.to_nat i = Some x -> vec_at v i = Ok x.
Proof.
  intros Hi Hx. unfold vec_at.
  destruct (Z.ltb_spec i 0); [lia|]. rewrite Hx. reflexivity.
Qed.

Lemma vec_at_oob {A : Type} (v : list A) (i : Z) :
  vec_size v <= i -> vec_at v i = Undefined OutOfBounds.
Proof.
  intros Hi. unfold vec_at, vec_size in *. destruct (Z.ltb_spec i 0); [reflexivity|].
  rewrite (lookup_ge_None_2 v (Z.to_nat i)) by lia. reflexivity.
Qed.

Lemma vec_at_cases {A : Type} (v : list A) (i : Z) :
  (exists x, vec_at v i = Ok x) \/ vec_at v i = Undefined OutOfBounds.
Proof.
  unfold vec_at. destruct (i <? 0); [right; reflexivity|].
  destruct (v !! Z.to_nat i); [left; eauto|right; reflexivity].
Qed.

Lemma vec_set_ok {A : Type} (v : list A) (i : Z) (x : A) :
  0 <= i < vec_size v -> vec_set v i x = Ok (<[Z.to_nat i := x]> v).
Proof.
  intros Hi. unfold vec_set.
  destruct (Z.leb_spec 0 i); [|lia]. destruct (Z.ltb_spec i (vec_size v)); [|lia].
  reflexivity.
Qed.

Lemma addr_of_ok (v : list ptr) (i : Z) :
  0 <= i < vec_size v -> addr_of v i = Ok (Slot (Z.to_nat i)).
Proof.
  intros Hi. unfold addr_of.
  destruct (Z.leb_spec 0 i); [|lia]. destruct (Z.ltb_spec i (vec_size v)); [|lia].
  reflexivity.
Qed.

Lemma addr_of_oob (v : list ptr) (i : Z) :
  vec_size v <= i -> addr_of v i = Undefined OutOfBounds.
Proof.
  intros Hi. unfold addr_of. destruct (Z.ltb_spec i (vec_size v)); [lia|].
  rewrite andb_false_r. reflexivity.
Qed.

Lemma deref_cases (v : list ptr) (p : ptr) :
  (exists q, deref v p = Ok q) \/ (exists why, deref v p = Undefined why).
Proof.
  destruct p as [|i]; simpl; [right; eauto|].
  destruct (v !! i); [left|right]; eauto.
Qed.

(** ** The builder *)

Section Builder.

Variables size step : Z.
Hypothesis step_pos : 0 < step.
Hypothesis step_llong : step < Int.half.
Hypothesis size_alloc : size <= vector_max_size.

Lemma same_class_below (i k : Z) :
  0 <= k -> k < i -> k mod step = i mod step -> k <= i - step.
Proof.
  intros Hk Hki Hm.
  pose proof (Z.div_mod k step) as Ek. pose proof (Z.div_mod i step) as Ei.
  pose proof (Z.mod_pos_bound k step step_pos).
  assert (k / step < i / step) by nia. nia.
Qed.

Lemma mkTestBuffer_loop_spec (fuel : nat) :
  forall (i : Z) (buf : list ptr),
    0 <= i < size -> vec_size buf = size -> i / step < Z.of_nat fuel ->
    exists buf',
      mkTestBuffer_loop fuel size step i (Int.to_llong (i - step)) buf = Ok buf' /\
      length buf' = length buf /\
      forall k : nat,
        buf' !! k = if rewritten step i k then Some (back_link size step k) else buf !! k.
Proof.
  induction fuel as [|fuel IH]; intros i buf Hi Hlen Hfuel.
  - pose proof (Z.div_pos i step). lia.
  - assert (Hll : Int.to_llong (i - step) = i - step).
    { apply to_llong_id. unfold Int.is_llong.
      pose proof size_alloc as Ha. pose proof step_llong as Hs.
      rewrite half_eq in *. rewrite vector_max_size_eq in Ha. lia. }
    rewrite Hll. cbn [mkTestBuffer_loop].
    destruct (Z.leb_spec 0 (i - step)) as [Hj|Hj].
    + rewrite addr_of_ok by lia. cbn [bind].
      rewrite vec_set_ok by lia. cbn [bind].
      assert (Hsz : Int.to_size_t (size - 1) = size - 1).
      { apply to_size_t_id. unfold Int.is_size_t. rewrite modulus_eq.
        pose proof size_alloc as Ha. rewrite vector_max_size_eq in Ha. lia. }
      rewrite Hsz.
      rewrite addr_of_ok by (unfold vec_size in *; rewrite length_insert; lia).
      cbn [bind].
      rewrite vec_set_ok by (unfold vec_size in *; rewrite length_insert; lia).
      cbn [bind].
      destruct (IH (i - step)
                  (<[Z.to_nat (i - step) := Slot (Z.to_nat (size - 1))]>
                     (<[Z.to_nat i := Slot (Z.to_nat (i - step))]> buf)))
        as (buf' & Hrun & Hlen' & Hbuf').
      * lia.
      * unfold vec_size in *. rewrite !length_insert. exact Hlen.
      * assert (i / step = (i - step) / step + 1).
        { replace i with ((i - step) + 1 * step) at 1 by lia.
          rewrite Z.div_add by lia. reflexivity. }
        lia.
      * exists buf'. split; [exact Hrun|]. split.
        { rewrite Hlen', !length_insert. reflexivity. }
        intros k. rewrite Hbuf'. clear Hbuf' Hrun IH.
        assert (Hjm : (i - step) mod step = i mod step).
        { replace (i - step) with (i + (-1) * step) by lia.
          apply Z.mod_add. lia. }
        unfold rewritten, back_link. rewrite Hjm.
        destruct (Z.leb_spec step i) as [_|]; [|lia].
        destruct (Z.eqb_spec (Z.of_nat k mod step) (i mod step)) as [Hm|Hm];
          rewrite ?andb_false_r; cbn [andb].
        -- destruct (Z.leb_spec (Z.of_nat k) i) as [Hki|Hki]; cbn [andb].
           ++ destruct (Z.eq_dec (Z.of_nat k) i) as [Heq|Hne].
              ** (* the slot the iteration leaves behind *)
                 destruct (Z.leb_spec (Z.of_nat k) (i - step)); [lia|].
                 rewrite andb_false_r.
                 rewrite list_lookup_insert_ne by lia.
                 replace (Z.to_nat i) with k by lia.
                 rewrite list_lookup_insert_eq by (unfold vec_size in *; lia).
                 destruct (Z.ltb_spec (Z.of_nat k) step); [lia|].
                 rewrite Heq. reflexivity.
              ** pose proof (same_class_below i (Z.of_nat k)) as Hb.
                 destruct (Z.leb_spec (Z.of_nat k) (i - step)); [|lia].
                 destruct (Z.leb_spec step (i - step)) as [Hs|Hs]; cbn [andb].
                 { reflexivity. }
                 (* the last iteration: the slot linked back to the end *)
                 assert (Z.of_nat k = i - step).
                 { rewrite <- Hjm in Hm.
                   rewrite (Z.mod_small (Z.of_nat k)) in Hm by lia.
                   rewrite (Z.mod_small (i - step)) in Hm by lia. exact Hm. }
                 replace (Z.to_nat (i - step)) with k by lia.
                 rewrite list_lookup_insert_eq
                   by (rewrite length_insert; unfold vec_size in *; lia).
                 destruct (Z.ltb_spec (Z.of_nat k) step); [reflexivity|lia].
           ++ destruct (Z.leb_spec (Z.of_nat k) (i - step)); [lia|].
              rewrite andb_false_r.
              rewrite !list_lookup_insert_ne by lia. reflexivity.
        -- rewrite !list_lookup_insert_ne; [reflexivity| |].
           ++ intros E. apply Hm. rewrite <- E, Z2Nat.id by lia. reflexivity.
           ++ intros E. apply Hm. rewrite <- E, Z2Nat.id by lia. exact Hjm.
    + exists buf. split; [reflexivity|]. split; [reflexivity|].
      intros k. unfold rewritten.
      destruct (Z.leb_spec step i); [lia|]. reflexivity.
Qed.

Hypothesis size_pos : 0 < size.

Lemma mkTestBuffer_unfold :
  mkTestBuffer size step =
  mkTestBuffer_loop (Z.to_nat size) size step (size - 1)
    (Int.to_llong (Int.to_size_t (size - 1 - step)))
    (replicate (Z.to_nat size) Null).
Proof.
  unfold mkTestBuffer.
  destruct (Z.ltb_spec 0 size); [|lia]. destruct (Z.ltb_spec 0 step); [|lia].
  cbn [andb negb]. destruct (Z.ltb_spec vector_max_size size); [lia|].
  pose proof size_alloc as Ha. rewrite vector_max_size_eq in Ha.
  rewrite (to_size_t_id (size - 1))
    by (unfold Int.is_size_t; rewrite modulus_eq; lia).
  rewrite (to_llong_id (size - 1))
    by (unfold Int.is_llong; rewrite half_eq; lia).
  reflexivity.
Qed.

(** With [step < size] the loop runs and leaves the chain. *)
Lemma mkTestBuffer_chain :
  step < size ->
  exists buf,
    mkTestBuffer size step = Ok buf /\
    vec_size buf = size /\
    forall k : nat, Z.of_nat k < size -> buf !! k = Some (chain_link size step k).
Proof.
  intros Hlt. rewrite mkTestBuffer_unfold.
  pose proof size_alloc as Ha. rewrite vector_max_size_eq in Ha.
  rewrite (to_size_t_id (size - 1 - step))
    by (unfold Int.is_size_t; rewrite modulus_eq; lia).
  destruct (mkTestBuffer_loop_spec (Z.to_nat size) (size - 1)
              (replicate (Z.to_nat size) Null))
    as (buf & Hrun & Hlen & Hbuf).
  - lia.
  - unfold vec_size. rewrite length_replicate. lia.
  - assert ((size - 1) / step <= size - 1)
      by (apply Z.div_le_upper_bound; nia).
    lia.
  - exists buf. split; [exact Hrun|]. split.
    + unfold vec_size. rewrite Hlen, length_replicate. lia.
    + intros k Hk. rewrite Hbuf. unfold chain_link.
      destruct (rewritten step (size - 1) k); [reflexivity|].
      apply lookup_replicate_2. lia.
Qed.

(** With [size <= step] the first test [j >= 0] fails: nothing is linked. *)
Lemma mkTestBuffer_null :
  size <= step ->
  mkTestBuffer size step = Ok (replicate (Z.to_nat size) Null).
Proof.
  intros Hge. rewrite mkTestBuffer_unfold.
  pose proof size_alloc as Ha. rewrite vector_max_size_eq in Ha.
  pose proof step_llong as Hs. rewrite half_eq in Hs.
  rewrite (to_size_t_neg (size - 1 - step)) by (rewrite modulus_eq; lia).
  rewrite to_llong_high by (rewrite modulus_eq, half_eq; lia).
  destruct (Z.to_nat size) as [|n] eqn:E; [lia|].
  cbn [mkTestBuffer_loop].
  destruct (Z.leb_spec 0 (size - 1 - step + Int.modulus - Int.modulus)); [lia|].
  reflexivity.
Qed.

End Builder.

(** ** Walking the chain *)

Lemma succ_mod (t L : Z) :
  0 < L -> (t + 1) mod L = if t mod L =? L - 1 then 0 else t mod L + 1.
Proof.
  intros HL. pose proof (Z.div_mod t L ltac:(lia)) as E.
  pose proof (Z.mod_pos_bound t L HL) as B.
  destruct (Z.eqb_spec (t mod L) (L - 1)) as [Hm|Hm].
  - symmetry. apply (Z.mod_unique _ _ (t / L + 1)); [lia|]. nia.
  - symmetry. apply (Z.mod_unique _ _ (t / L)); [lia|]. nia.
Qed.

Section Chain.

Variables size step : Z.
Variable buf : list ptr.
Hypothesis step_pos : 0 < step.
Hypothesis step_lt : step < size.
Hypothesis size_alloc : size <= vector_max_size.
Hypothesis buf_size : vec_size buf = size.
Hypothesis buf_chain :
  forall k : nat, Z.of_nat k < size -> buf !! k = Some (chain_link size step k).

Lemma cycle_len_ge : 2 <= cycle_len size step.
Proof.
  unfold cycle_len.
  assert (1 <= (size - 1) / step) by (apply Z.div_le_lower_bound; lia).
  lia.
Qed.

Lemma cycle_index_bounds (t : Z) :
  0 <= size - 1 - (t mod cycle_len size step) * step <= size - 1.
Proof.
  pose proof cycle_len_ge as HL.
  pose proof (Z.mod_pos_bound t (cycle_len size step) ltac:(lia)) as B.
  unfold cycle_len in *.
  pose proof (Z.mul_div_le (size - 1) step step_pos). nia.
Qed.

Lemma cycle_slot_val (t : Z) :
  Z.of_nat (cycle_slot size step t) = size - 1 - (t mod cycle_len size step) * step.
Proof. unfold cycle_slot. pose proof (cycle_index_bounds t). lia. Qed.

Lemma cycle_slot_lt (t : Z) : Z.of_nat (cycle_slot size step t) < size.
Proof. rewrite cycle_slot_val. pose proof (cycle_index_bounds t). lia. Qed.

(** Every slot of the chain lies in the residue class of the last index. *)
Lemma cycle_slot_class (t : Z) :
  Z.of_nat (cycle_slot size step t) mod step = (size - 1) mod step.
Proof.
  rewrite cycle_slot_val.
  replace (size - 1 - t mod cycle_len size step * step)
    with (size - 1 + (- (t mod cycle_len size step)) * step) by lia.
  apply Z.mod_add. lia.
Qed.

Lemma cycle_slot_inj (s t : Z) :
  cycle_slot size step s = cycle_slot size step t ->
  s mod cycle_len size step = t mod cycle_len size step.
Proof.
  intros E. apply (f_equal Z.of_nat) in E. rewrite !cycle_slot_val in E. nia.
Qed.

Lemma cycle_slot_0 : Slot (cycle_slot size step 0) = entry size.
Proof.
  unfold cycle_slot, entry. rewrite Z.mod_0_l by (pose proof cycle_len_ge; lia).
  f_equal. lia.
Qed.

(** One hop moves one place along the chain. *)
Lemma deref_cycle (t : Z) :
  deref buf (Slot (cycle_slot size step t)) = Ok (Slot (cycle_slot size step (t + 1))).
Proof.
  pose proof cycle_len_ge as HL.
  pose proof (cycle_index_bounds t) as B.
  pose proof (Z.mod_pos_bound t (cycle_len size step) ltac:(lia)) as Bm.
  cbn [deref]. rewrite buf_chain by apply cycle_slot_lt.
  unfold chain_link, rewritten.
  rewrite cycle_slot_class, Z.eqb_refl.
  destruct (Z.leb_spec step (size - 1)); [|lia].
  destruct (Z.leb_spec (Z.of_nat (cycle_slot size step t)) (size - 1));
    [|pose proof (cycle_slot_lt t); lia].
  cbn [andb]. unfold back_link. f_equal. f_equal.
  rewrite cycle_slot_val.
  unfold cycle_slot at 1. rewrite succ_mod by lia.
  assert (Hq : (size - 1) / step * step <= size - 1 < ((size - 1) / step + 1) * step).
  { pose proof (Z.mul_div_le (size - 1) step step_pos).
    pose proof (Z.mul_succ_div_gt (size - 1) step step_pos). lia. }
  unfold cycle_len in *.
  destruct (Z.eqb_spec (t mod ((size - 1) / step + 1)) ((size - 1) / step + 1 - 1))
    as [Hm|Hm].
  - destruct (Z.ltb_spec (size - 1 - t mod ((size - 1) / step + 1) * step) step);
      [f_equal; lia|nia].
  - destruct (Z.ltb_spec (size - 1 - t mod ((size - 1) / step + 1) * step) step);
      [nia|f_equal; lia].
Qed.

Lemma hops_cycle (n : nat) :
  forall t : Z,
    hops buf n (Slot (cycle_slot size step t)) =
    Ok (Slot (cycle_slot size step (t + Z.of_nat n))).
Proof.
  induction n as [|n IH]; intros t.
  - cbn [hops]. rewrite Z.add_0_r. reflexivity.
  - cbn [hops]. rewrite deref_cycle. cbn [bind]. rewrite IH.
    do 3 f_equal. lia.
Qed.

Lemma last_slot_read :
  vec_at buf (Int.to_size_t (vec_size buf - 1)) = Ok (Slot (cycle_slot size step 1)).
Proof.
  pose proof cycle_len_ge as HL.
  assert (Hd : deref buf (Slot (cycle_slot size step 0))
               = Ok (Slot (cycle_slot size step 1))) by apply (deref_cycle 0).
  cbn [deref] in Hd.
  destruct (buf !! cycle_slot size step 0) as [q|] eqn:E; [|discriminate].
  injection Hd as ->.
  assert (Hsz : Int.to_size_t (vec_size buf - 1) = Z.of_nat (cycle_slot size step 0)).
  { rewrite cycle_slot_val, Z.mod_0_l by lia.
    rewrite buf_size. pose proof size_alloc as Ha.
    rewrite vector_max_size_eq in Ha.
    rewrite to_size_t_id by (unfold Int.is_size_t; rewrite modulus_eq; lia).
    lia. }
  apply vec_at_ok.
  - rewrite Hsz. lia.
  - rewrite Hsz, Nat2Z.id. exact E.
Qed.

End Chain.

(** ** The two traversals *)

Lemma timed_hops_hops (clk : clock) (buf : list ptr) (n : nat) :
  forall (t : nat) (pos : ptr) (times : list Z),
    (r <- timed_hops clk buf n t pos times ;; Ok (snd (fst r))) = hops buf n pos.
Proof.
  induction n as [|n IH]; intros t pos times; cbn [timed_hops hops].
  - reflexivity.
  - destruct (deref buf pos) as [q| |why| |]; cbn [bind]; try reflexivity.
    apply IH.
Qed.

Lemma timed_hops_times (clk : clock) (buf : list ptr) (n : nat) :
  forall (t : nat) (pos : ptr) (times times' : list Z) (pos' : ptr) (t' : nat),
    timed_hops clk buf n t pos times = Ok (times', pos', t') ->
    length times' = (length times + n)%nat /\ t' = (t + 2 * n)%nat.
Proof.
  induction n as [|n IH]; intros t pos times times' pos' t'; cbn [timed_hops].
  - intros [= <- <- <-]. lia.
  - intros H. apply bind_ok in H as (q & _ & H).
    apply IH in H as [H1 H2]. rewrite H1, H2, length_app. cbn [length]. lia.
Qed.

(** When the timings can be reserved the timed traversal is the bulk one. *)
Lemma touchTestBufferTimed_landing (clk : clock) (t : nat) (buffer : list ptr) (n : Z) :
  n <= vector_max_size ->
  (r <- touchTestBufferTimed clk t buffer n ;; Ok (snd (fst r))) = touchTestBuffer buffer n.
Proof.
  intros Hn. unfold touchTestBufferTimed, touchTestBuffer.
  destruct (vec_at buffer (Int.to_size_t (vec_size buffer - 1))) as [pos| |why| |];
    cbn [bind]; try reflexivity.
  destruct (Z.ltb_spec vector_max_size n); [lia|].
  rewrite <- (timed_hops_hops clk buffer (Z.to_nat n) t pos []).
  destruct (timed_hops clk buffer (Z.to_nat n) t pos []) as [[[times p] t']| |why| |];
    cbn [bind fst snd]; try reflexivity.
  destruct (deref buffer p); reflexivity.
Qed.

Lemma touchTestBufferTimed_times (clk : clock) (t : nat) (buffer : list ptr) (n : Z)
    (times : list Z) (landing : ptr) (t' : nat) :
  touchTestBufferTimed clk t buffer n = Ok (times, landing, t') ->
  length times = Z.to_nat n /\ t' = (t + 2 * Z.to_nat n)%nat.
Proof.
  unfold touchTestBufferTimed. intros H.
  apply bind_ok in H as (pos & _ & H).
  destruct (vector_max_size <? n); [discriminate|].
  apply bind_ok in H as ([[ts p] t1] & Hh & H).
  apply bind_ok in H as (q & _ & H). injection H as <- _ <-.
  apply timed_hops_times in Hh. cbn [length] in Hh. lia.
Qed.


Section ChainTraversal.

Variables size step : Z.
Variable buf : list ptr.
Hypothesis step_pos : 0 < step.
Hypothesis step_lt : step < size.
Hypothesis size_alloc : size <= vector_max_size.
Hypothesis buf_size : vec_size buf = size.
Hypothesis buf_chain :
  forall k : nat, Z.of_nat k < size -> buf !! k = Some (chain_link size step k).

(** The bulk traversal of a built chain never faults: it lands [n + 1]
    places along the chain and returns the link stored there. *)
Lemma touchTestBuffer_chain (n : Z) :
  touchTestBuffer buf n
  = Ok (Slot (cycle_slot size step (Z.of_nat (Z.to_nat n) + 2))).
Proof.
  unfold touchTestBuffer.
  rewrite (last_slot_read size step buf) by assumption. cbn [bind].
  rewrite (hops_cycle size step buf) by assumption. cbn [bind].
  rewrite (deref_cycle size step buf) by assumption.
  do 3 f_equal. lia.
Qed.

Lemma touchTestBufferTimed_chain (clk : clock) (t : nat) (n : Z) :
  n <= vector_max_size ->
  exists times,
    touchTestBufferTimed clk t buf n
    = Ok (times, Slot (cycle_slot size step (Z.of_nat (Z.to_nat n) + 2)),
          (t + 2 * Z.to_nat n)%nat)
    /\ length times = Z.to_nat n.
Proof.
  intros Hn.
  pose proof (touchTestBufferTimed_landing clk t buf n Hn) as H.
  rewrite touchTestBuffer_chain in H.
  destruct (touchTestBufferTimed clk t buf n) as [[[times p] t']| |why| |] eqn:E;
    cbn [bind fst snd] in H; try discriminate.
  injection H as ->. apply touchTestBufferTimed_times in E as HE.
  destruct HE as [Hl ->]. exists times. split; [reflexivity|exact Hl].
Qed.

End ChainTraversal.




(** ** Shape of the cycle *)

Lemma cycle_len_full (size step : Z) :
  0 < step -> step < size -> cycle_len size step = size <-> step = 1.
Proof.
  intros Hp Hlt. unfold cycle_len. split.
  - intros H. pose proof (Z.mul_div_le (size - 1) step Hp). nia.
  - intros ->. rewrite Z.div_1_r. lia.
Qed.

Section CycleShape.

Variables size step : Z.
Variable buf : list ptr.
Hypothesis step_pos : 0 < step.
Hypothesis step_lt : step < size.
Hypothesis size_alloc : size <= vector_max_size.
Hypothesis buf_size : vec_size buf = size.
Hypothesis buf_chain :
  forall k : nat, Z.of_nat k < size -> buf !! k = Some (chain_link size step k).

Lemma hops_from (s : Z) (n : nat) :
  hops buf n (Slot (cycle_slot size step s))
  = Ok (Slot (cycle_slot size step (s + Z.of_nat n))).
Proof. apply (hops_cycle size step buf); assumption. Qed.

(** After a full turn the walk is back where it started. *)
Lemma hops_full_turn (s : Z) :
  hops buf (Z.to_nat (cycle_len size step)) (Slot (cycle_slot size step s))
  = Ok (Slot (cycle_slot size step s)).
Proof.
  pose proof (cycle_len_ge size step step_pos step_lt) as HL.
  rewrite hops_from. do 2 f_equal. unfold cycle_slot. do 3 f_equal.
  rewrite Z2Nat.id by lia.
  rewrite <- (Z.mul_1_l (cycle_len size step)) at 1.
  apply Z.mod_add. lia.
Qed.

(** Two places of one turn are two slots. *)
Lemma hops_no_repeat (s : Z) (m n : nat) :
  (m < n)%nat -> Z.of_nat n < cycle_len size step ->
  hops buf m (Slot (cycle_slot size step s)) <> hops buf n (Slot (cycle_slot size step s)).
Proof.
  intros Hmn Hn. rewrite !hops_from. intros [= E].
  pose proof (cycle_len_ge size step step_pos step_lt) as HL.
  apply (cycle_slot_inj size step step_pos step_lt) in E.
  pose proof (Z.div_mod (s + Z.of_nat m) (cycle_len size step) ltac:(lia)).
  pose proof (Z.div_mod (s + Z.of_nat n) (cycle_len size step) ltac:(lia)).
  assert (cycle_len size step
          * ((s + Z.of_nat n) / cycle_len size step
             - (s + Z.of_nat m) / cycle_len size step)
          = Z.of_nat n - Z.of_nat m) as Hd by lia.
  set (d := (s + Z.of_nat n) / cycle_len size step
            - (s + Z.of_nat m) / cycle_len size step) in Hd.
  assert (d <= 0 \/ 1 <= d) as [Hc|Hc] by lia; nia.
Qed.

(** The slots on the chain are the residue class of the last index. *)
Lemma on_chain_iff (k : nat) :
  Z.of_nat k < size ->
  (exists n : nat, Z.of_nat n < cycle_len size step
                   /\ hops buf n (entry size) = Ok (Slot k))
  <-> Z.of_nat k mod step = (size - 1) mod step.
Proof.
  intros Hk. rewrite <- (cycle_slot_0 size step step_pos step_lt). split.
  - intros (n & _ & Hn). rewrite hops_from in Hn. injection Hn as <-.
    apply cycle_slot_class; assumption.
  - intros Hm.
    pose proof (Z.div_mod (size - 1) step ltac:(lia)) as E1.
    pose proof (Z.div_mod (Z.of_nat k) step ltac:(lia)) as E2.
    pose proof (Z.mod_pos_bound (Z.of_nat k) step step_pos) as B.
    assert (Hd : Z.of_nat k / step <= (size - 1) / step) by (apply Z.div_le_mono; lia).
    pose proof (Z.div_pos (Z.of_nat k) step ltac:(lia) step_pos).
    exists (Z.to_nat ((size - 1) / step - Z.of_nat k / step)).
    split; [unfold cycle_len; lia|].
    rewrite hops_from. do 2 f_equal. unfold cycle_slot.
    rewrite Z.add_0_l, Z2Nat.id by lia.
    rewrite Z.mod_small by (unfold cycle_len; lia). nia.
Qed.

End CycleShape.

(** C1 (amended): for an allocatable slot count and a stride
    [1 <= step < size], the links from the last slot form one closed cycle of
    [(size - 1) / step + 1] slots, with no slot met twice within a turn; the
    slots on it are exactly those in the residue class of [size - 1] modulo
    [step], so the cycle runs through all [size] slots exactly when
    [step = 1]. *)
Theorem mkTestBuffer_strided_cycle (size step : Z) :
  1 <= step < size -> size <= vector_max_size ->
  exists buf,
    mkTestBuffer size step = Ok buf
    /\ vec_size buf = size
    /\ hops buf (Z.to_nat (cycle_len size step)) (entry size) = Ok (entry size)
    /\ (forall m n : nat, (m < n)%nat -> Z.of_nat n < cycle_len size step ->
          hops buf m (entry size) <> hops buf n (entry size))
    /\ (forall k : nat, Z.of_nat k < size ->
          (exists n : nat, Z.of_nat n < cycle_len size step
                           /\ hops buf n (entry size) = Ok (Slot k))
          <-> Z.of_nat k mod step = (size - 1) mod step)
    /\ (forall k : nat, Z.of_nat k < size ->
          Z.of_nat k mod step <> (size - 1) mod step -> buf !! k = Some Null)
    /\ (cycle_len size step = size <-> step = 1).
Proof.
  intros [Hs Hlt] Ha.
  assert (Hll : step < Int.half)
    by (rewrite half_eq; rewrite vector_max_size_eq in Ha; lia).
  destruct (mkTestBuffer_chain size step ltac:(lia) Hll Ha ltac:(lia) Hlt)
    as (buf & Hmk & Hsz & Hch).
  exists buf. split; [exact Hmk|]. split; [exact Hsz|].
  assert (Hp : 0 < step) by lia.
  rewrite <- (cycle_slot_0 size step Hp Hlt).
  split; [apply hops_full_turn; assumption|].
  split; [intros m n; apply hops_no_repeat; assumption|].
  split; [|split].
  - intros k Hk. rewrite (cycle_slot_0 size step Hp Hlt).
    apply (on_chain_iff size step buf); assumption.
  - intros k Hk Hne. rewrite Hch by exact Hk. unfold chain_link, rewritten.
    destruct (Z.eqb_spec (Z.of_nat k mod step) ((size - 1) mod step)); [contradiction|].
    rewrite andb_false_r. reflexivity.
  - apply cycle_len_full; assumption.
Qed.

Lemma mkTestBuffer_strided_cycle_witness :
  exists buf,
    mkTestBuffer 8 2 = Ok buf
    /\ hops buf (Z.to_nat (cycle_len 8 2)) (entry 8) = Ok (entry 8).
Proof.
  destruct (mkTestBuffer_strided_cycle 8 2) as (buf & H1 & _ & H2 & _).
  - lia.
  - rewrite vector_max_size_eq. lia.
  - exists buf. split; assumption.
Defined.

(** C1 as stated fails for a stride of 2 over 5 slots: the walk from the
    last slot is back after 3 hops, is elsewhere after 5, and slot 1 is
    never linked. *)
Lemma mkTestBuffer_not_full_cycle :
  mkTestBuffer 5 2 = Ok [Slot 4; Null; Slot 0; Null; Slot 2]
  /\ hops [Slot 4; Null; Slot 0; Null; Slot 2] 3 (entry 5) = Ok (entry 5)
  /\ hops [Slot 4; Null; Slot 0; Null; Slot 2] 5 (entry 5) = Ok (Slot 0)
  /\ Slot 0 <> entry 5
  /\ [Slot 4; Null; Slot 0; Null; Slot 2] !! 1%nat = Some Null.
Proof. repeat split; try reflexivity. discriminate. Qed.

(** ** Outcomes of the builder *)

Lemma mkTestBuffer_loop_no_assert (fuel : nat) :
  forall (size step i j : Z) (buffer : list ptr),
    mkTestBuffer_loop fuel size step i j buffer <> AssertFailed.
Proof.
  induction fuel as [|fuel IH]; intros size step i j buffer; cbn [mkTestBuffer_loop];
    destruct (0 <=? j); try discriminate.
  unfold addr_of, vec_set.
  repeat (match goal with
          | |- context [if ?c then _ else _] => destruct c
          end; cbn [bind]; try discriminate).
  apply IH.
Qed.

(** A stride of more than [2^63 + size - 1] wraps [size - 1 - step] around to
    an index past the end, and the first iteration writes there. *)
Lemma mkTestBuffer_huge_step (size step : Z) :
  0 < size <= vector_max_size ->
  Int.half + size <= step < Int.modulus ->
  mkTestBuffer size step = Undefined OutOfBounds.
Proof.
  rewrite vector_max_size_eq, half_eq, modulus_eq. intros Hs Hst.
  unfold mkTestBuffer.
  destruct (Z.ltb_spec 0 size); [|lia]. destruct (Z.ltb_spec 0 step); [|lia].
  cbn [andb negb]. rewrite vector_max_size_eq.
  destruct (Z.ltb_spec 1152921504606846975 size); [lia|].
  rewrite (to_size_t_neg (size - 1 - step)) by (rewrite modulus_eq; lia).
  rewrite (to_llong_id (size - 1 - step + Int.modulus))
    by (unfold Int.is_llong; rewrite modulus_eq, half_eq; lia).
  destruct (Z.to_nat size) as [|n] eqn:E; [lia|].
  cbn [mkTestBuffer_loop]. rewrite modulus_eq.
  destruct (Z.leb_spec 0 (size - 1 - step + 18446744073709551616)); [|lia].
  rewrite addr_of_oob; [reflexivity|].
  unfold vec_size. rewrite length_replicate. lia.
Qed.

(** A stride from [size] up to [2^63 + size - 1] leaves the loop unentered:
    [size - 1 - step] wraps around to a value that reads as a negative
    [long long]. *)
Lemma mkTestBuffer_null_wide (size step : Z) :
  0 < size <= vector_max_size -> size <= step < Int.half + size ->
  mkTestBuffer size step = Ok (replicate (Z.to_nat size) Null).
Proof.
  intros Hs Hst. destruct (Z.lt_ge_cases step Int.half) as [Hll|Hll].
  - apply mkTestBuffer_null; lia.
  - unfold mkTestBuffer.
    destruct (Z.ltb_spec 0 size); [|lia]. destruct (Z.ltb_spec 0 step); [|lia].
    cbn [andb negb]. destruct (Z.ltb_spec vector_max_size size); [lia|].
    rewrite vector_max_size_eq in Hs. rewrite half_eq in *.
    rewrite (to_size_t_neg (size - 1 - step)) by (rewrite modulus_eq; lia).
    rewrite (to_llong_high (size - 1 - step + Int.modulus))
      by (rewrite modulus_eq, half_eq; lia).
    destruct (Z.to_nat size) as [|n] eqn:E; [lia|].
    cbn [mkTestBuffer_loop].
    destruct (Z.leb_spec 0 (size - 1 - step + Int.modulus - Int.modulus)); [lia|].
    reflexivity.
Qed.

(** The fuel handed to the loop is enough: the model of [mkTestBuffer]
    always gives an outcome of the program. *)
Lemma mkTestBuffer_total (size step : Z) :
  Int.is_size_t size -> Int.is_size_t step ->
  mkTestBuffer size step <> OutOfFuel.
Proof.
  unfold Int.is_size_t. intros Hs Hst.
  destruct (Z.eq_dec size 0) as [->|Hs0]; [discriminate|].
  destruct (Z.eq_dec step 0) as [->|Hst0].
  { unfold mkTestBuffer. rewrite andb_false_r. discriminate. }
  destruct (Z.le_gt_cases size vector_max_size) as [Ha|Ha].
  2:{ unfold mkTestBuffer.
      destruct (Z.ltb_spec 0 size); [|lia]. destruct (Z.ltb_spec 0 step); [|lia].
      cbn [andb negb]. destruct (Z.ltb_spec vector_max_size size); [|lia].
      discriminate. }
  destruct (Z.lt_ge_cases step size) as [Hlt|Hge].
  - assert (Hll : step < Int.half)
      by (rewrite half_eq; rewrite vector_max_size_eq in Ha; lia).
    destruct (mkTestBuffer_chain size step ltac:(lia) Hll Ha ltac:(lia) Hlt)
      as (buf & -> & _). discriminate.
  - destruct (Z.lt_ge_cases step (Int.half + size)) as [Hsm|Hbig].
    + destruct (Z.lt_ge_cases step Int.half) as [Hll|Hll].
      * rewrite mkTestBuffer_null by lia. discriminate.
      * (* [size - 1 - step] wraps to a value that reads as a negative [long long] *)
        unfold mkTestBuffer.
        destruct (Z.ltb_spec 0 size); [|lia]. destruct (Z.ltb_spec 0 step); [|lia].
        cbn [andb negb]. destruct (Z.ltb_spec vector_max_size size); [lia|].
        rewrite vector_max_size_eq in Ha. rewrite half_eq in *. rewrite modulus_eq in *.
        rewrite (to_size_t_neg (size - 1 - step)) by (rewrite modulus_eq; lia).
        rewrite (to_llong_high (size - 1 - step + Int.modulus))
          by (rewrite modulus_eq, half_eq; lia).
        destruct (Z.to_nat size) as [|n] eqn:E; [lia|].
        cbn [mkTestBuffer_loop].
        destruct (Z.leb_spec 0 (size - 1 - step + Int.modulus - Int.modulus)); [lia|].
        discriminate.
    + rewrite mkTestBuffer_huge_step by lia. discriminate.
Qed.

Lemma hops_null (buf : list ptr) (n : nat) :
  (pos <- hops buf n Null ;; deref buf pos) = Undefined NullDeref.
Proof. destruct n; reflexivity. Qed.

Lemma null_buffer_last (size : Z) :
  0 < size <= vector_max_size ->
  vec_at (replicate (Z.to_nat size) Null)
    (Int.to_size_t (vec_size (replicate (Z.to_nat size) Null) - 1)) = Ok Null.
Proof.
  rewrite vector_max_size_eq. intros Hs.
  assert (Hv : vec_size (replicate (Z.to_nat size) Null) = size)
    by (unfold vec_size; rewrite length_replicate; lia).
  rewrite Hv, to_size_t_id by (unfold Int.is_size_t; rewrite modulus_eq; lia).
  apply vec_at_ok; [lia|apply lookup_replicate_2; lia].
Qed.

Lemma touchTestBuffer_null (size nTouches : Z) :
  0 < size <= vector_max_size ->
  touchTestBuffer (replicate (Z.to_nat size) Null) nTouches = Undefined NullDeref.
Proof.
  intros Hs. unfold touchTestBuffer. rewrite null_buffer_last by exact Hs.
  cbn [bind]. apply hops_null.
Qed.




(** ** Tabulated series and the largest element *)

Lemma tabulate_length {A : Type} (f : Z -> A) (count : nat) :
  forall lo, length (tabulate f lo count) = count.
Proof. induction count as [|c IH]; intros lo; cbn [tabulate length]; [|rewrite IH]; reflexivity. Qed.

Lemma tabulate_snoc {A : Type} (f : Z -> A) (count : nat) :
  forall lo, tabulate f lo (S count) = tabulate f lo count ++ [f (lo + Z.of_nat count)].
Proof.
  induction count as [|c IH]; intros lo.
  - cbn [tabulate app]. rewrite Z.add_0_r. reflexivity.
  - change (tabulate f lo (S (S c))) with (f lo :: tabulate f (lo + 1) (S c)).
    rewrite IH. cbn [tabulate app].
    replace (lo + Z.of_nat (S c)) with (lo + 1 + Z.of_nat c) by lia. reflexivity.
Qed.

Lemma tabulate_lookup {A : Type} (f : Z -> A) (count : nat) :
  forall lo (k : nat), (k < count)%nat ->
    tabulate f lo count !! k = Some (f (lo + Z.of_nat k)).
Proof.
  induction count as [|c IH]; intros lo k Hk; [lia|].
  destruct k as [|k]; cbn [tabulate].
  - rewrite Z.add_0_r. reflexivity.
  - change ((f lo :: tabulate f (lo + 1) c) !! S k) with (tabulate f (lo + 1) c !! k).
    rewrite IH by lia. do 2 f_equal. lia.
Qed.

Lemma tabulate_in {A : Type} (f : Z -> A) (count : nat) :
  forall lo x, In x (tabulate f lo count) ->
    exists p, lo <= p < lo + Z.of_nat count /\ x = f p.
Proof.
  induction count as [|c IH]; intros lo x; cbn [tabulate In]; [tauto|].
  intros [<-|H].
  - exists lo. split; [lia|reflexivity].
  - apply IH in H as (p & Hp & ->). exists p. split; [lia|reflexivity].
Qed.

Section MaxElement.

Context {A : Type}.
Variable key : A -> Z.

(** [std::max_element] stops at the first of the largest elements. *)
Lemma fold_keep_largest_first (rest : list A) :
  forall x0,
    exists pre post,
      x0 :: rest
      = pre ++ fold_left (keep_largest (fun x y => key x <? key y)) rest x0 :: post
      /\ Forall (fun y => key y
                          < key (fold_left (keep_largest (fun x y => key x <? key y)) rest x0))
           pre
      /\ Forall (fun y => key y
                          <= key (fold_left (keep_largest (fun x y => key x <? key y)) rest x0))
           post.
Proof.
  induction rest as [|y rest IH] using rev_ind; intros x0.
  - exists [], []. cbn [fold_left app]. repeat split; constructor.
  - destruct (IH x0) as (pre & post & E & Hpre & Hpost).
    rewrite fold_left_app. cbn [fold_left].
    set (r := fold_left (keep_largest (fun x y => key x <? key y)) rest x0) in *.
    unfold keep_largest. destruct (Z.ltb_spec (key r) (key y)) as [Hlt|Hge].
    + exists (x0 :: rest), []. split; [reflexivity|]. split; [|constructor].
      rewrite E. apply Forall_app. split.
      * eapply Forall_impl; [exact Hpre|]. cbn beta. intros; lia.
      * constructor; [exact Hlt|].
        eapply Forall_impl; [exact Hpost|]. cbn beta. intros; lia.
    + exists pre, (post ++ [y]). split.
      * change (x0 :: rest ++ [y]) with ((x0 :: rest) ++ [y]). rewrite E.
        rewrite <- app_assoc. reflexivity.
      * split; [exact Hpre|]. apply Forall_app. split; [exact Hpost|].
        constructor; [lia|constructor].
Qed.

Lemma max_element_first (l : list A) :
  l <> [] ->
  exists pre x post,
    max_element (fun x y => key x <? key y) l = Some x
    /\ l = pre ++ x :: post
    /\ Forall (fun y => key y < key x) pre
    /\ Forall (fun y => key y <= key x) post.
Proof.
  destruct l as [|x0 rest]; [congruence|]. intros _.
  destruct (fold_keep_largest_first rest x0) as (pre & post & E & Hpre & Hpost).
  exists pre, (fold_left (keep_largest (fun x y => key x <? key y)) rest x0), post.
  cbn [max_element]. tauto.
Qed.

End MaxElement.

(** ** The series of selectCacheSize *)

Section Select.

Variable infos : list RawLevelInfo.
Variable windowSize : Z.
Hypothesis infos_size : Int.is_size_t (vec_size infos).
Hypothesis window_pos : 1 <= windowSize.
Hypothesis window_size_t : Int.is_size_t windowSize.

Lemma vec_at_info (p : Z) :
  0 <= p < vec_size infos -> vec_at infos p = Ok (info_at infos p).
Proof.
  intros Hp. apply vec_at_ok; [lia|]. unfold info_at.
  destruct (nth_lookup_or_length infos (Z.to_nat p)
              {| arraySizeBytes := 0; timeNanos := 0 |}) as [E|E];
    [exact E|unfold vec_size in Hp; lia].
Qed.

Lemma diffs_loop (k : nat) :
  forall (i : Z) (acc : list RawLevelInfo),
    1 <= i -> i + Z.of_nat k <= vec_size infos ->
    for_loop k i (diffs_body infos) acc = Ok (acc ++ tabulate (diff_at infos) i k).
Proof.
  induction k as [|k IH]; intros i acc Hi Hk; cbn [for_loop tabulate].
  - rewrite app_nil_r. reflexivity.
  - unfold diffs_body at 1.
    rewrite !vec_at_info by lia. cbn [bind].
    rewrite IH by lia. rewrite <- app_assoc. reflexivity.
Qed.

Lemma diffs_series :
  for_range 1 (vec_size infos) (diffs_body infos) []
  = Ok (tabulate (diff_at infos) 1 (Z.to_nat (vec_size infos - 1))).
Proof.
  unfold for_range. destruct (Z.to_nat (vec_size infos - 1)) as [|k] eqn:E.
  - reflexivity.
  - rewrite diffs_loop by lia. reflexivity.
Qed.

Lemma vec_at_diffs (i : Z) :
  0 <= i < vec_size infos - 1 ->
  vec_at (tabulate (diff_at infos) 1 (Z.to_nat (vec_size infos - 1))) i
  = Ok (diff_at infos (i + 1)).
Proof.
  intros Hi. apply vec_at_ok; [lia|].
  rewrite tabulate_lookup by lia. do 2 f_equal. lia.
Qed.

(** The inner loop adds the differences [j .. j + k - 1]; they telescope. *)
Lemma window_sum_loop (k : nat) :
  forall (j sum : Z),
    0 <= j -> j + Z.of_nat k <= vec_size infos - 1 -> Int.is_llong sum ->
    for_loop k j
      (window_sum_body (tabulate (diff_at infos) 1 (Z.to_nat (vec_size infos - 1)))) sum
    = Ok (Int.to_llong (sum + timeNanos (info_at infos (j + Z.of_nat k))
                        - timeNanos (info_at infos j))).
Proof.
  induction k as [|k IH]; intros j sum Hj Hk Hsum; cbn [for_loop].
  - rewrite Z.add_0_r. f_equal. symmetry.
    replace (sum + timeNanos (info_at infos j) - timeNanos (info_at infos j))
      with sum by lia.
    apply to_llong_id. exact Hsum.
  - unfold window_sum_body at 1. rewrite vec_at_diffs by lia. cbn [bind].
    rewrite IH by (try apply to_llong_range; lia).
    cbn [diff_at timeNanos]. f_equal.
    rewrite to_llong_add_r.
    replace (j + 1 - 1) with j by lia.
    replace (j + 1 + Z.of_nat k) with (j + Z.of_nat (S k)) by lia.
    set (a := timeNanos (info_at infos (j + 1))).
    set (b := timeNanos (info_at infos j)).
    set (c := timeNanos (info_at infos (j + Z.of_nat (S k)))).
    replace (Int.to_llong (sum + (a - b)) + c - a)
      with (Int.to_llong (sum + (a - b)) + (c - a)) by lia.
    rewrite to_llong_add_l. f_equal. lia.
Qed.

Lemma windowed_loop_spec (fuel : nat) :
  forall (i : Z) (acc : list RawLevelInfo),
    3 <= vec_size infos -> windowSize - 1 <= i ->
    vec_size infos - 3 - i < Z.of_nat fuel ->
    windowed_loop fuel (tabulate (diff_at infos) 1 (Z.to_nat (vec_size infos - 1)))
      windowSize i (vec_size infos - 3) acc
    = Ok (acc ++ tabulate (window_at infos windowSize) (i + 1)
                   (Z.to_nat (vec_size infos - 3 - i))).
Proof.
  induction fuel as [|fuel IH]; intros i acc Hn Hi Hfuel; cbn [windowed_loop].
  - destruct (Z.ltb_spec i (vec_size infos - 3)); [lia|].
    replace (Z.to_nat (vec_size infos - 3 - i)) with O by lia.
    cbn [tabulate]. rewrite app_nil_r. reflexivity.
  - destruct (Z.ltb_spec i (vec_size infos - 3)) as [Hlt|Hge].
    + rewrite vec_at_diffs by lia. cbn [bind].
      unfold Int.is_size_t in *.
      rewrite (to_size_t_id (i + 1 - windowSize)) by (unfold Int.is_size_t; lia).
      unfold for_range.
      rewrite window_sum_loop
        by (cbn [diff_at timeNanos]; try apply to_llong_range; lia).
      cbn [bind]. rewrite IH by lia.
      replace (Z.to_nat (vec_size infos - 3 - i))
        with (S (Z.to_nat (vec_size infos - 3 - (i + 1)))) by lia.
      cbn [tabulate]. rewrite <- app_assoc. cbn [app].
      do 3 f_equal.
      unfold window_at. cbn [diff_at arraySizeBytes timeNanos]. f_equal.
      replace (i + 1 - 1) with i by lia.
      replace (i + 1 - windowSize + Z.of_nat (Z.to_nat (i - (i + 1 - windowSize))))
        with i by lia.
      set (a := timeNanos (info_at infos (i + 1))).
      set (b := timeNanos (info_at infos i)).
      set (c := timeNanos (info_at infos (i + 1 - windowSize))).
      replace (Int.to_llong (a - b) + b - c)
        with (Int.to_llong (a - b) + (b - c)) by lia.
      rewrite to_llong_add_l. f_equal. lia.
    + replace (Z.to_nat (vec_size infos - 3 - i)) with O by lia.
      cbn [tabulate]. rewrite app_nil_r. reflexivity.
Qed.

(** From three raw points on, the windowed series has one point for each
    raw point [windowSize <= p <= size - 3]. *)
Lemma windowedSeries_spec :
  3 <= vec_size infos ->
  windowedSeries infos windowSize
  = Ok (tabulate (window_at infos windowSize) windowSize
          (Z.to_nat (vec_size infos - 2 - windowSize))).
Proof.
  intros Hn. unfold windowedSeries. rewrite diffs_series. cbn [bind].
  assert (Hd : vec_size (tabulate (diff_at infos) 1 (Z.to_nat (vec_size infos - 1)))
               = vec_size infos - 1).
  { unfold vec_size at 1. rewrite tabulate_length. lia. }
  rewrite Hd, tabulate_length.
  unfold Int.is_size_t in *.
  rewrite (to_size_t_id (windowSize - 1)) by (unfold Int.is_size_t; lia).
  replace (vec_size infos - 1 - 2) with (vec_size infos - 3) by lia.
  rewrite (to_size_t_id (vec_size infos - 3)) by (unfold Int.is_size_t; lia).
  rewrite windowed_loop_spec by lia.
  cbn [app]. do 2 f_equal; lia.
Qed.

(** With fewer than three raw points [diffs.size() - 2] wraps around. *)
Lemma windowedSeries_short :
  vec_size infos < 3 -> 2 <= windowSize ->
  windowedSeries infos windowSize = Undefined OutOfBounds
  \/ windowedSeries infos windowSize = Ok [].
Proof.
  intros Hn Hw. unfold windowedSeries. rewrite diffs_series. cbn [bind].
  set (diffs := tabulate (diff_at infos) 1 (Z.to_nat (vec_size infos - 1))).
  assert (Hd : vec_size diffs < 2).
  { unfold vec_size, diffs. rewrite tabulate_length. unfold vec_size in *. lia. }
  assert (Hd0 : 0 <= vec_size diffs) by (unfold vec_size; lia).
  unfold Int.is_size_t in *.
  rewrite (to_size_t_id (windowSize - 1)) by (unfold Int.is_size_t; lia).
  rewrite (to_size_t_neg (vec_size diffs - 2)) by (rewrite modulus_eq; lia).
  cbn [windowed_loop].
  destruct (Z.ltb_spec (windowSize - 1) (vec_size diffs - 2 + Int.modulus));
    [|right; reflexivity].
  left. rewrite vec_at_oob by lia. reflexivity.
Qed.

End Select.

(** ** What selectCacheSize returns *)

Lemma strictly_increasing_nth (l : list Z) :
  strictly_increasing l ->
  forall i j : nat, (i < j < length l)%nat -> nth i l 0 < nth j l 0.
Proof.
  induction l as [|x rest IH]; intros Hinc i j Hij; cbn [length] in Hij; [lia|].
  destruct Hinc as [Hhd Htl].
  assert (Hnext : forall j : nat, (S j < S (length rest))%nat -> x < nth j rest 0).
  { clear i j Hij. intros j. revert x Hhd. clear IH.
    revert rest Htl. induction j as [|j IHj]; intros rest Htl x Hhd Hj.
    - destruct rest as [|y rest']; cbn [length] in Hj; [lia|exact Hhd].
    - destruct rest as [|y rest']; cbn [length] in Hj; [lia|].
      destruct Htl as [Hy Htl']. cbn [nth].
      specialize (IHj rest' Htl' y Hy ltac:(lia)). lia. }
  destruct j as [|j]; [lia|]. destruct i as [|i]; cbn [nth].
  - apply Hnext. lia.
  - apply IH; [exact Htl|lia].
Qed.

Lemma timeNanos_info_at (infos : list RawLevelInfo) (p : Z) :
  timeNanos (info_at infos p) = nth (Z.to_nat p) (map timeNanos infos) 0.
Proof.
  unfold info_at. symmetry.
  exact (map_nth timeNanos infos {| arraySizeBytes := 0; timeNanos := 0 |} (Z.to_nat p)).
Qed.

Lemma info_at_in (infos : list RawLevelInfo) (p : Z) :
  0 <= p < vec_size infos -> In (info_at infos p) infos.
Proof. intros Hp. unfold info_at. apply nth_In. unfold vec_size in Hp. lia. Qed.

Section SelectResult.

Variable infos : list RawLevelInfo.
Variable windowSize : Z.
Hypothesis infos_size : Int.is_size_t (vec_size infos).
Hypothesis window_size_t : Int.is_size_t windowSize.
Hypothesis window_ok : 2 <= windowSize.

Lemma selectCacheSize_unfold :
  selectCacheSize infos windowSize
  = (windowed <- windowedSeries infos windowSize ;;
     match max_element (fun x y => timeNanos x <? timeNanos y) windowed with
     | Some x => Ok (arraySizeBytes x)
     | None => Undefined EmptyRange
     end).
Proof.
  unfold selectCacheSize. destruct (Z.leb_spec 2 windowSize); [reflexivity|lia].
Qed.

(** Enough raw points: the first largest windowed point is selected. *)
Lemma selectCacheSize_first_max :
  windowSize + 3 <= vec_size infos ->
  exists pre x post,
    windowedSeries infos windowSize = Ok (pre ++ x :: post)
    /\ pre ++ x :: post
       = tabulate (window_at infos windowSize) windowSize
           (Z.to_nat (vec_size infos - 2 - windowSize))
    /\ selectCacheSize infos windowSize = Ok (arraySizeBytes x)
    /\ Forall (fun y => timeNanos y < timeNanos x) pre
    /\ Forall (fun y => timeNanos y <= timeNanos x) post.
Proof.
  intros Hn. rewrite selectCacheSize_unfold.
  rewrite windowedSeries_spec by (assumption || lia). cbn [bind].
  set (windowed := tabulate (window_at infos windowSize) windowSize
                     (Z.to_nat (vec_size infos - 2 - windowSize))).
  destruct (max_element_first timeNanos windowed) as (pre & x & post & Hm & E & H1 & H2).
  { intros E. apply (f_equal (@length _)) in E. unfold windowed in E.
    rewrite tabulate_length in E. cbn [length] in E. lia. }
  exists pre, x, post. rewrite Hm, <- E. tauto.
Qed.

(** Three raw points or more, but too few for one window. *)
Lemma selectCacheSize_empty :
  3 <= vec_size infos <= windowSize + 2 ->
  windowedSeries infos windowSize = Ok []
  /\ selectCacheSize infos windowSize = Undefined EmptyRange.
Proof.
  intros Hn. rewrite selectCacheSize_unfold.
  rewrite windowedSeries_spec by (assumption || lia).
  replace (Z.to_nat (vec_size infos - 2 - windowSize)) with O by lia.
  split; reflexivity.
Qed.

Lemma selectCacheSize_short :
  vec_size infos < 3 -> exists why, selectCacheSize infos windowSize = Undefined why.
Proof.
  intros Hn. rewrite selectCacheSize_unfold.
  assert (windowedSeries infos windowSize = Undefined OutOfBounds
          \/ windowedSeries infos windowSize = Ok []) as [-> | ->]
    by (apply windowedSeries_short; (assumption || lia));
    cbn [bind max_element]; eauto.
Qed.

Lemma selectCacheSize_no_assert : selectCacheSize infos windowSize <> AssertFailed.
Proof.
  destruct (Z.lt_ge_cases (vec_size infos) 3) as [Hs|Hs].
  { destruct (selectCacheSize_short Hs) as [why ->]. discriminate. }
  destruct (Z.le_gt_cases (windowSize + 3) (vec_size infos)) as [Hn|Hn].
  - destruct (selectCacheSize_first_max Hn) as (pre & x & post & _ & _ & -> & _).
    discriminate.
  - destruct selectCacheSize_empty as [_ ->]; [lia|discriminate].
Qed.

(** The selected size is the size of a probed point. *)
Lemma selectCacheSize_probed :
  windowSize + 3 <= vec_size infos ->
  exists s p,
    selectCacheSize infos windowSize = Ok s
    /\ windowSize <= p <= vec_size infos - 3
    /\ s = arraySizeBytes (info_at infos p)
    /\ In s (map arraySizeBytes infos).
Proof.
  intros Hn.
  destruct (selectCacheSize_first_max Hn) as (pre & x & post & _ & E & Hs & _).
  assert (Hin : In x (pre ++ x :: post)) by (apply in_elt).
  rewrite E in Hin. apply tabulate_in in Hin as (p & Hp & ->).
  exists (arraySizeBytes (info_at infos p)), p. split; [exact Hs|].
  split; [lia|]. split; [reflexivity|].
  apply in_map, info_at_in. lia.
Qed.

End SelectResult.

(** C5 (amended): for a window of at least 2, the windowed series has
    [size - windowSize - 2] points when there are at least [windowSize + 3]
    raw points, and then the maximum is read inside it; it is empty when
    there are between 3 and [windowSize + 2] raw points, [windowSize + 2]
    included, and the maximum is read at the end of an empty range; with
    fewer than 3 raw points the run is undefined as well. *)
Theorem windowed_series_size (infos : list RawLevelInfo) (windowSize : Z) :
  Int.is_size_t (vec_size infos) -> Int.is_size_t windowSize -> 2 <= windowSize ->
  (windowSize + 3 <= vec_size infos ->
     exists windowed s,
       windowedSeries infos windowSize = Ok windowed
       /\ vec_size windowed = vec_size infos - windowSize - 2
       /\ selectCacheSize infos windowSize = Ok s
       /\ In s (map arraySizeBytes windowed))
  /\ (3 <= vec_size infos <= windowSize + 2 ->
        windowedSeries infos windowSize = Ok []
        /\ selectCacheSize infos windowSize = Undefined EmptyRange)
  /\ (vec_size infos < 3 ->
        exists why, selectCacheSize infos windowSize = Undefined why).
Proof.
  intros Hn Hw Hw2. split; [|split].
  - intros Hlen.
    destruct (selectCacheSize_first_max infos windowSize Hn Hw Hw2 Hlen)
      as (pre & x & post & Hser & E & Hsel & _).
    exists (pre ++ x :: post), (arraySizeBytes x).
    split; [exact Hser|]. split.
    + rewrite E. unfold vec_size at 1. rewrite tabulate_length. lia.
    + split; [exact Hsel|]. apply in_map, in_elt.
  - apply selectCacheSize_empty; assumption.
  - apply selectCacheSize_short; assumption.
Qed.

Lemma windowed_series_size_witness :
  exists windowed s,
    windowedSeries
      (map (fun t => {| arraySizeBytes := 8192 * t; timeNanos := t * t |}) [1; 2; 3; 4; 5; 6; 7]) 3
    = Ok windowed
    /\ selectCacheSize
         (map (fun t => {| arraySizeBytes := 8192 * t; timeNanos := t * t |}) [1; 2; 3; 4; 5; 6; 7]) 3
       = Ok s.
Proof.
  destruct (windowed_series_size
              (map (fun t => {| arraySizeBytes := 8192 * t; timeNanos := t * t |})
                 [1; 2; 3; 4; 5; 6; 7]) 3) as [H _].
  - unfold Int.is_size_t, vec_size. cbn [length map]. rewrite modulus_eq. lia.
  - unfold Int.is_size_t. rewrite modulus_eq. lia.
  - lia.
  - destruct H as (windowed & s & H1 & _ & H2 & _);
      [unfold vec_size; cbn [length map]; lia|].
    exists windowed, s. split; assumption.
Defined.

(** C5 as stated fails with exactly [windowSize + 2] raw points: five points
    and a window of 3 leave the windowed series empty, and the maximum is
    read at the end of the empty range. *)
Lemma windowed_empty_at_window_plus_two :
  vec_size (map (fun t => {| arraySizeBytes := 8192 * t; timeNanos := t * t |})
              [1; 2; 3; 4; 5]) = 3 + 2
  /\ windowedSeries
       (map (fun t => {| arraySizeBytes := 8192 * t; timeNanos := t * t |}) [1; 2; 3; 4; 5]) 3
     = Ok []
  /\ selectCacheSize
       (map (fun t => {| arraySizeBytes := 8192 * t; timeNanos := t * t |}) [1; 2; 3; 4; 5]) 3
     = Undefined EmptyRange.
Proof. repeat split; reflexivity. Qed.

(** C4 (amended): for a series of at least [windowSize + 3] raw points whose
    timings are non-negative and strictly increasing, every windowed sum is
    the rise of the timing over the last [windowSize] points, so it is
    positive, and [selectCacheSize] returns the size at the first largest
    windowed sum.  (The windowed sums themselves need not be ordered.) *)
Theorem selectCacheSize_increasing (infos : list RawLevelInfo) (windowSize : Z) :
  Int.is_size_t (vec_size infos) -> Int.is_size_t windowSize -> 2 <= windowSize ->
  windowSize + 3 <= vec_size infos ->
  Forall (fun x => 0 <= timeNanos x < Int.half) infos ->
  strictly_increasing (map timeNanos infos) ->
  exists pre x post,
    windowedSeries infos windowSize = Ok (pre ++ x :: post)
    /\ Forall (fun y => exists p,
                 windowSize <= p <= vec_size infos - 3
                 /\ arraySizeBytes y = arraySizeBytes (info_at infos p)
                 /\ timeNanos y = timeNanos (info_at infos p)
                                  - timeNanos (info_at infos (p - windowSize))
                 /\ 0 < timeNanos y)
         (pre ++ x :: post)
    /\ selectCacheSize infos windowSize = Ok (arraySizeBytes x)
    /\ Forall (fun y => timeNanos y < timeNanos x) pre
    /\ Forall (fun y => timeNanos y <= timeNanos x) post.
Proof.
  intros Hn Hw Hw2 Hlen Hrange Hinc.
  destruct (selectCacheSize_first_max infos windowSize Hn Hw Hw2 Hlen)
    as (pre & x & post & Hser & E & Hsel & Hpre & Hpost).
  exists pre, x, post. split; [exact Hser|]. split; [|tauto].
  rewrite E. apply Forall_forall. intros y Hy.
  apply list_elem_of_In, tabulate_in in Hy as (p & Hp & ->).
  exists p. split; [lia|]. split; [reflexivity|].
  cbn [window_at timeNanos].
  assert (Hlt : timeNanos (info_at infos (p - windowSize)) < timeNanos (info_at infos p)).
  { rewrite !timeNanos_info_at. apply strictly_increasing_nth; [exact Hinc|].
    rewrite length_map. unfold vec_size in *. lia. }
  assert (Hb : forall q, 0 <= q < vec_size infos ->
                         0 <= timeNanos (info_at infos q) < Int.half).
  { intros q Hq. rewrite Forall_forall in Hrange.
    apply Hrange, list_elem_of_In, info_at_in. exact Hq. }
  pose proof (Hb p ltac:(lia)). pose proof (Hb (p - windowSize) ltac:(lia)).
  rewrite to_llong_id by (unfold Int.is_llong; lia). lia.
Qed.

Lemma selectCacheSize_increasing_witness :
  exists pre x post,
    windowedSeries
      (map (fun t => {| arraySizeBytes := 8192 * t; timeNanos := t * t |}) [1; 2; 3; 4; 5; 6; 7]) 3
    = Ok (pre ++ x :: post)
    /\ selectCacheSize
         (map (fun t => {| arraySizeBytes := 8192 * t; timeNanos := t * t |}) [1; 2; 3; 4; 5; 6; 7]) 3
       = Ok (arraySizeBytes x).
Proof.
  destruct (selectCacheSize_increasing
              (map (fun t => {| arraySizeBytes := 8192 * t; timeNanos := t * t |})
                 [1; 2; 3; 4; 5; 6; 7]) 3)
    as (pre & x & post & H1 & _ & H2 & _).
  - unfold Int.is_size_t, vec_size. cbn [length map]. rewrite modulus_eq. lia.
  - unfold Int.is_size_t. rewrite modulus_eq. lia.
  - lia.
  - unfold vec_size. cbn [length map]. lia.
  - cbn [map]. rewrite half_eq.
    repeat first [apply List.Forall_nil
                 | apply List.Forall_cons; [cbn [timeNanos]; lia|]].
  - cbn [map timeNanos strictly_increasing]. lia.
  - exists pre, x, post. split; assumption.
Defined.

(** C4 as stated fails: over the strictly increasing timings
    0, 100, 101, ..., 105 the windowed sums are 102 then 3. *)
Lemma windowed_not_monotone :
  strictly_increasing [0; 100; 101; 102; 103; 104; 105]
  /\ windowedSeries
       (map (fun p => {| arraySizeBytes := fst p; timeNanos := snd p |})
          [(8192, 0); (16384, 100); (24576, 101); (32768, 102);
           (40960, 103); (49152, 104); (57344, 105)]) 3
     = Ok [{| arraySizeBytes := 32768; timeNanos := 102 |};
           {| arraySizeBytes := 40960; timeNanos := 3 |}]
  /\ ~ non_decreasing [102; 3].
Proof.
  split; [cbn [strictly_increasing]; lia|]. split; [reflexivity|].
  cbn [non_decreasing]. lia.
Qed.

(** C8: with assertions enabled, [mkTestBuffer] aborts exactly when [size]
    or [step] is zero and [selectCacheSize] exactly when [windowSize < 2];
    no other path of either function ends in a failed assertion. *)
Theorem assertions_fire_exactly
    (size step : Z) (infos : list RawLevelInfo) (windowSize : Z) :
  Int.is_size_t size -> Int.is_size_t step ->
  Int.is_size_t (vec_size infos) -> Int.is_size_t windowSize ->
  (mkTestBuffer size step = AssertFailed <-> size = 0 \/ step = 0)
  /\ (selectCacheSize infos windowSize = AssertFailed <-> windowSize < 2).
Proof.
  unfold Int.is_size_t. intros Hs Hst Hn Hw. split; split.
  - intros H. unfold mkTestBuffer in H.
    destruct (Z.ltb_spec 0 size); [|lia]. destruct (Z.ltb_spec 0 step); [|lia].
    cbn [andb negb] in H. destruct (vector_max_size <? size); [discriminate|].
    apply mkTestBuffer_loop_no_assert in H. contradiction.
  - intros [-> | ->]; unfold mkTestBuffer; [reflexivity|].
    rewrite andb_false_r. reflexivity.
  - intros H. destruct (Z.lt_ge_cases windowSize 2) as [Hlt|Hge]; [exact Hlt|].
    exfalso. apply (selectCacheSize_no_assert infos windowSize); (assumption || lia).
  - intros H. unfold selectCacheSize.
    destruct (Z.leb_spec 2 windowSize); [lia|reflexivity].
Qed.

Lemma assertions_fire_exactly_witness :
  (mkTestBuffer 0 1 = AssertFailed <-> 0 = 0 \/ 1 = 0)
  /\ (selectCacheSize [] 1 = AssertFailed <-> 1 < 2).
Proof.
  apply (assertions_fire_exactly 0 1 [] 1);
    unfold Int.is_size_t, vec_size; cbn [length]; rewrite modulus_eq; lia.
Defined.

(** ** The probing rounds *)

Lemma probe_stride_bounds (size : Z) :
  1 <= size -> 1 <= probe_stride size <= size.
Proof.
  intros Hs. unfold probe_stride, nTouches.
  assert (size / 1000000 <= size) by (apply Z.div_le_upper_bound; lia).
  lia.
Qed.

Lemma probe_stride_lt (size : Z) : 2 <= size -> probe_stride size < size.
Proof.
  intros Hs. unfold probe_stride, nTouches.
  assert (size / 1000000 < size) by (apply Z.div_lt; lia).
  lia.
Qed.

(** A round over an allocatable buffer of at least two slots completes. *)
Lemma probe_round_ok (clk : clock) (t : nat) (size : Z) :
  2 <= size <= vector_max_size ->
  probe_round clk t size
  = Ok ({| arraySizeBytes := size * Int.sizeof_ptr;
           timeNanos := elapsed (clk t) (clk (S t)) |}, S (S t)).
Proof.
  intros Hs. unfold probe_round.
  pose proof (probe_stride_bounds size ltac:(lia)) as Hb.
  pose proof (probe_stride_lt size ltac:(lia)) as Hlt.
  assert (Hv : vector_max_size = 1152921504606846975) by reflexivity.
  destruct (mkTestBuffer_chain size (probe_stride size)) as (buf & -> & Hsz & Hch);
    try (rewrite ?half_eq; lia).
  cbn [bind].
  rewrite (touchTestBuffer_chain size (probe_stride size) buf)
    by (assumption || lia).
  cbn [bind]. do 3 f_equal.
  apply to_size_t_id. unfold Int.is_size_t, Int.sizeof_ptr. rewrite modulus_eq. lia.
Qed.

Lemma tryCacheLevelSizes_loop_ok (clk : clock) (maxSize sizeStep : Z) (count : nat) :
  forall (fuel : nat) (t : nat) (size : Z) (infos : list RawLevelInfo) (log : list probe),
    2 <= size -> 1 <= sizeStep <= vector_max_size -> maxSize <= vector_max_size ->
    size + (Z.of_nat count - 1) * sizeStep <= maxSize < size + Z.of_nat count * sizeStep ->
    (count <= fuel)%nat ->
    snd (tryCacheLevelSizes_loop fuel clk t size maxSize sizeStep infos log)
    = Ok (infos ++ rounds clk count t size sizeStep, (t + 2 * count)%nat).
Proof.
  assert (Hv : vector_max_size = 1152921504606846975) by reflexivity.
  induction count as [|count IH]; intros fuel t size infos log Hs Hst Hmax Hc Hf.
  - replace (t + 2 * 0)%nat with t by lia.
    destruct fuel; cbn [tryCacheLevelSizes_loop rounds];
      (destruct (Z.leb_spec size maxSize); [lia|]);
      cbn [snd]; rewrite app_nil_r; reflexivity.
  - replace (t + 2 * S count)%nat with (S (S t) + 2 * count)%nat by lia.
    destruct fuel as [|fuel]; [lia|]. cbn [tryCacheLevelSizes_loop rounds].
    destruct (Z.leb_spec size maxSize); [|nia].
    rewrite probe_round_ok by lia.
    rewrite (to_size_t_id (size + sizeStep))
      by (unfold Int.is_size_t; rewrite modulus_eq; lia).
    rewrite IH by (try nia; lia).
    rewrite <- app_assoc. reflexivity.
Qed.

Lemma rounds_length (clk : clock) (sizeStep : Z) (count : nat) :
  forall t size, length (rounds clk count t size sizeStep) = count.
Proof.
  induction count as [|c IH]; intros t size; cbn [rounds length]; [|rewrite IH];
    reflexivity.
Qed.

Lemma rounds_sizes (clk : clock) (sizeStep : Z) (count : nat) :
  forall t size (k : Z),
    size = k * sizeStep ->
    map arraySizeBytes (rounds clk count t size sizeStep)
    = tabulate (fun k => k * (sizeStep * Int.sizeof_ptr)) k count.
Proof.
  induction count as [|c IH]; intros t size k E; cbn [rounds map tabulate].
  - reflexivity.
  - cbn [arraySizeBytes]. f_equal; [subst size; lia|].
    apply IH. lia.
Qed.

(** Probing [minSizeBytes .. maxSizeBytes] with at least two slots in the
    smallest buffer records one point per multiple of the smallest size. *)
Lemma tryCacheLevelSizes_ok (clk : clock) (t : nat) (minSizeBytes maxSizeBytes : Z) :
  2 <= minSizeBytes / Int.sizeof_ptr ->
  0 <= maxSizeBytes -> maxSizeBytes / Int.sizeof_ptr <= vector_max_size ->
  exists infos,
    tryCacheLevelSizes clk t minSizeBytes maxSizeBytes
    = Ok (infos, (t + 2 * length infos)%nat)
    /\ vec_size infos = maxSizeBytes / Int.sizeof_ptr / (minSizeBytes / Int.sizeof_ptr)
    /\ map arraySizeBytes infos
       = tabulate (fun k => k * (minSizeBytes / Int.sizeof_ptr * Int.sizeof_ptr)) 1
           (length infos).
Proof.
  intros Hmin Hmax0 Hmax.
  assert (Hmax1 : 0 <= maxSizeBytes / Int.sizeof_ptr)
    by (apply Z.div_pos; [exact Hmax0|reflexivity]).
  set (minSize := minSizeBytes / Int.sizeof_ptr) in *.
  set (maxSize := maxSizeBytes / Int.sizeof_ptr) in *.
  assert (Hv : vector_max_size = 1152921504606846975) by reflexivity.
  destruct (Z.le_gt_cases minSize maxSize) as [Hle|Hgt].
  - set (count := Z.to_nat (maxSize / minSize)).
    assert (Hq : 1 <= maxSize / minSize) by (apply Z.div_le_lower_bound; lia).
    assert (Hq2 : maxSize / minSize <= maxSize) by (apply Z.div_le_upper_bound; nia).
    pose proof (Z.mul_div_le maxSize minSize ltac:(lia)) as Hlo.
    pose proof (Z.mul_succ_div_gt maxSize minSize ltac:(lia)) as Hhi.
    exists (rounds clk count t minSize minSize).
    unfold tryCacheLevelSizes, tryCacheLevelSizes_run. fold minSize maxSize.
    rewrite (tryCacheLevelSizes_loop_ok clk maxSize minSize count)
      by (unfold count; try nia; lia).
    rewrite rounds_length. cbn [app]. split; [reflexivity|]. split.
    + unfold vec_size. rewrite rounds_length. unfold count. lia.
    + apply rounds_sizes. lia.
  - exists []. unfold tryCacheLevelSizes, tryCacheLevelSizes_run. fold minSize maxSize.
    cbn [tryCacheLevelSizes_loop]. destruct (Z.leb_spec minSize maxSize); [lia|].
    cbn [snd length map tabulate].
    replace (t + 2 * 0)%nat with t by lia. split; [reflexivity|]. split; [|reflexivity].
    unfold vec_size. cbn [length]. symmetry. apply Z.div_small. lia.
Qed.

(** The default range of [main]: 32 points, and a selected size among them. *)
Lemma tryCacheLevelSizes_default_range (clk : clock) (t : nat) :
  exists infos,
    tryCacheLevelSizes clk t (8 * KB) (256 * KB) = Ok (infos, (t + 64)%nat)
    /\ length infos = 32%nat
    /\ map arraySizeBytes infos = tabulate (fun k => k * (8 * KB)) 1 32
    /\ exists s, selectCacheSize infos 3 = Ok s /\ In s (map arraySizeBytes infos).
Proof.
  destruct (tryCacheLevelSizes_ok clk t (8 * KB) (256 * KB))
    as (infos & Hrun & Hsz & Hsizes); [cbv; congruence..|].
  change (256 * KB / Int.sizeof_ptr / (8 * KB / Int.sizeof_ptr)) with 32 in Hsz.
  assert (Hlen : length infos = 32%nat) by (unfold vec_size in Hsz; lia).
  rewrite Hlen in Hrun, Hsizes.
  exists infos. split; [exact Hrun|]. split; [exact Hlen|]. split; [exact Hsizes|].
  destruct (selectCacheSize_probed infos 3) as (s & p & Hsel & _ & _ & Hin).
  - unfold Int.is_size_t. rewrite Hsz, modulus_eq. lia.
  - unfold Int.is_size_t. rewrite modulus_eq. lia.
  - lia.
  - lia.
  - exists s. split; assumption.
Qed.

(** C2 (amended): probing 8 KiB .. 256 KiB completes whatever the clock
    reads and records one raw point per multiple of 8 KiB, 8 KiB and 256 KiB
    included: 32 points; [selectCacheSize] with a window of 3 then returns
    the size of one of these points. *)
Theorem probing_default_range (clk : clock) (t : nat) :
  exists infos t',
    tryCacheLevelSizes clk t (8 * KB) (256 * KB) = Ok (infos, t')
    /\ length infos = 32%nat
    /\ map arraySizeBytes infos = tabulate (fun k => k * (8 * KB)) 1 32
    /\ exists s, selectCacheSize infos 3 = Ok s /\ In s (map arraySizeBytes infos).
Proof.
  destruct (tryCacheLevelSizes_default_range clk t) as (infos & H).
  exists infos, (t + 64)%nat. exact H.
Qed.

(** C2 as stated fails: the run records 32 points, not 33. *)
Lemma probing_default_range_count :
  exists infos t',
    tryCacheLevelSizes (fun _ => 0) 0 (8 * KB) (256 * KB) = Ok (infos, t')
    /\ length infos = 32%nat
    /\ length infos <> 33%nat.
Proof.
  destruct (tryCacheLevelSizes_default_range (fun _ => 0) 0) as (infos & H1 & H2 & _).
  exists infos, 64%nat. split; [exact H1|]. split; [exact H2|]. rewrite H2. discriminate.
Qed.

(** ** The strides of the probing rounds *)

Lemma mkTestBuffer_ok_args (size step : Z) (buf : list ptr) :
  mkTestBuffer size step = Ok buf -> 0 < size <= vector_max_size /\ 0 < step.
Proof.
  unfold mkTestBuffer.
  destruct (Z.ltb_spec 0 size); [|discriminate].
  destruct (Z.ltb_spec 0 step); [|discriminate]. cbn [andb negb].
  destruct (Z.ltb_spec vector_max_size size); [discriminate|]. lia.
Qed.









(** The range of a single one-slot round: the buffer is built with stride 1
    over its one slot, which holds null, and the warm-up traversal faults
    before its first hop is done. *)
Example probe_round_single_slot :
  fst (tryCacheLevelSizes_run (fun _ => 0) 0 8 8)
  = [{| probe_size := 1; probe_step := 1; probe_touches := 1000000 |}]
  /\ mkTestBuffer 1 1 = Ok [Null]
  /\ vec_size [Null] = 1
  /\ touches_performed [Null] 1000000 = O.
Proof. repeat split. Qed.

(** ** The doubling loop of calcCacheLineSize *)

(** One iteration that does not fault: the buffer is allocatable, and the
    loop either returns the stride in bytes or goes on with the next one. *)
Lemma calcCacheLineSize_loop_step (fuel : nat) (clk : clock) (t : nat)
    (size step last : Z) (trace trace' : list (Z * Z)) (v : Z) :
  step < size ->
  calcCacheLineSize_loop (S fuel) clk t size step last trace = Ok (trace', v) ->
  0 < size <= vector_max_size
  /\ exists (m : Z) (t' : nat),
       (drop_seen last m = true
        /\ trace' = trace ++ [(step, m)]
        /\ v = Int.to_size_t (step * Int.sizeof_ptr))
       \/ (drop_seen last m = false
           /\ calcCacheLineSize_loop fuel clk t' size (Int.to_size_t (step * 2)) m
                (trace ++ [(step, m)]) = Ok (trace', v)).
Proof.
  intros Hlt. cbn [calcCacheLineSize_loop].
  destruct (Z.ltb_spec step size); [|lia]. intros Hrun.
  apply bind_ok in Hrun as (buf & Hmk & Hrun).
  apply bind_ok in Hrun as ([[times landing] t'] & _ & Hrun).
  apply bind_ok in Hrun as (diffs & _ & Hrun).
  apply bind_ok in Hrun as (m & _ & Hrun).
  split; [apply mkTestBuffer_ok_args in Hmk; tauto|].
  exists m, t'. destruct (drop_seen last m).
  - left. injection Hrun as <- <-. auto.
  - right. auto.
Qed.

Lemma pow2_pos (k : Z) : 0 <= k -> 0 < 2 ^ k.
Proof. intros Hk. apply Z.pow_pos_nonneg; lia. Qed.

Lemma pow2_succ (k : Z) : 0 <= k -> 2 ^ (k + 1) = 2 ^ k * 2.
Proof. intros Hk. rewrite Z.pow_add_r by lia. reflexivity. Qed.

Section LineSize.

Variable clk : clock.
Variable size : Z.

(** The value returned is a stride of at least one slot, in bytes. *)
Lemma calcCacheLineSize_loop_word (fuel : nat) :
  forall (t : nat) (step last : Z) (trace trace' : list (Z * Z)) (v : Z),
    1 <= step <= 2 * vector_max_size ->
    calcCacheLineSize_loop fuel clk t size step last trace = Ok (trace', v) ->
    Int.sizeof_ptr <= v.
Proof.
  assert (Hv : vector_max_size = 1152921504606846975) by reflexivity.
  assert (Hret : forall step, 1 <= step <= 2 * vector_max_size ->
                              Int.sizeof_ptr <= Int.to_size_t (step * Int.sizeof_ptr)).
  { intros step Hs. unfold Int.sizeof_ptr.
    rewrite to_size_t_id by (unfold Int.is_size_t; rewrite modulus_eq; lia). lia. }
  induction fuel as [|fuel IH]; intros t step last trace trace' v Hs H.
  - cbn [calcCacheLineSize_loop] in H. destruct (step <? size); [discriminate|].
    injection H as _ <-. apply Hret. exact Hs.
  - destruct (Z.lt_ge_cases step size) as [Hlt|Hge].
    + destruct (calcCacheLineSize_loop_step _ _ _ _ _ _ _ _ _ Hlt H)
        as (Hsz & m & t' & [(_ & _ & ->)|(_ & H')]).
      * apply Hret. exact Hs.
      * apply IH in H'; [exact H'|].
        rewrite to_size_t_id by (unfold Int.is_size_t; rewrite modulus_eq; lia). lia.
    + cbn [calcCacheLineSize_loop] in H. destruct (Z.ltb_spec step size); [lia|].
      injection H as _ <-. apply Hret. exact Hs.
Qed.

(** Where the loop stops: at the first power of two that is not below
    [size]. *)
Lemma exit_stride_at (k : Z) :
  0 <= k -> k = 0 \/ 2 ^ (k - 1) < size <= vector_max_size ->
  size <= 2 ^ k ->
  Int.to_size_t (2 ^ k * Int.sizeof_ptr) = exit_stride size * Int.sizeof_ptr
  /\ Z.log2_up size = k.
Proof.
  assert (Hv : vector_max_size = 1152921504606846975) by reflexivity.
  intros Hk Hprev Hge. unfold exit_stride.
  destruct (Z.eq_dec k 0) as [-> | Hk0].
  - assert (Hlog : Z.log2_up size = 0)
      by (apply Z.log2_up_eqn0; cbn in Hge; lia).
    rewrite Hlog. split; reflexivity.
  - destruct Hprev as [-> | Hprev]; [congruence|].
    assert (Hlog : Z.log2_up size = k).
    { apply Z.log2_up_unique; [lia|].
      replace (Z.pred k) with (k - 1) by lia. lia. }
    split; [|exact Hlog]. rewrite Hlog.
    apply to_size_t_id. unfold Int.is_size_t, Int.sizeof_ptr. rewrite modulus_eq.
    pose proof (pow2_pos k Hk).
    assert (2 ^ k = 2 ^ (k - 1) * 2).
    { replace k with ((k - 1) + 1) at 1 by lia. apply pow2_succ. lia. }
    lia.
Qed.

(** Without a drop the loop runs through the powers of two below [size]
    and returns the next one, in bytes. *)
Lemma calcCacheLineSize_loop_no_drop (fuel : nat) :
  forall (t : nat) (k last : Z) (trace trace' : list (Z * Z)) (v : Z),
    0 <= k -> k = 0 \/ 2 ^ (k - 1) < size <= vector_max_size ->
    calcCacheLineSize_loop fuel clk t size (2 ^ k) last trace = Ok (trace', v) ->
    exists more,
      trace' = trace ++ more
      /\ (no_drop_from last (map snd more) = true ->
            v = exit_stride size * Int.sizeof_ptr
            /\ map fst more
               = tabulate (fun i => 2 ^ i) k (Z.to_nat (Z.log2_up size - k))).
Proof.
  assert (Hv : vector_max_size = 1152921504606846975) by reflexivity.
  induction fuel as [|fuel IH]; intros t k last trace trace' v Hk Hprev Hrun.
  - cbn [calcCacheLineSize_loop] in Hrun.
    destruct (Z.ltb_spec (2 ^ k) size); [discriminate|].
    injection Hrun as <- <-. exists []. rewrite app_nil_r. split; [reflexivity|].
    intros _. destruct (exit_stride_at k Hk Hprev ltac:(lia)) as [-> ->].
    rewrite Z.sub_diag. split; reflexivity.
  - destruct (Z.lt_ge_cases (2 ^ k) size) as [Hlt|Hge].
    + destruct (calcCacheLineSize_loop_step _ _ _ _ _ _ _ _ _ Hlt Hrun)
        as (Hsz & m & t' & [(Hdrop & -> & ->)|(Hdrop & Hrun')]).
      * exists [(2 ^ k, m)]. split; [reflexivity|].
        cbn [map snd no_drop_from]. rewrite Hdrop. discriminate.
      * pose proof (pow2_pos k Hk) as Hp.
        rewrite to_size_t_id, <- pow2_succ in Hrun'
          by (try (unfold Int.is_size_t; rewrite modulus_eq); lia).
        apply IH in Hrun' as (more & -> & Hmore);
          [|lia|right; replace (k + 1 - 1) with k by lia; lia].
        exists ((2 ^ k, m) :: more). rewrite <- app_assoc. split; [reflexivity|].
        cbn [map fst snd no_drop_from]. rewrite Hdrop. cbn [negb andb].
        intros Hno. destruct (Hmore Hno) as [-> Hst]. split; [reflexivity|].
        assert (k < Z.log2_up size) by (apply Z.log2_up_lt_pow2; lia).
        replace (Z.to_nat (Z.log2_up size - k))
          with (S (Z.to_nat (Z.log2_up size - (k + 1)))) by lia.
        cbn [tabulate]. rewrite Hst. reflexivity.
    + cbn [calcCacheLineSize_loop] in Hrun.
      destruct (Z.ltb_spec (2 ^ k) size); [lia|].
      injection Hrun as <- <-. exists []. rewrite app_nil_r. split; [reflexivity|].
      intros _. destruct (exit_stride_at k Hk Hprev ltac:(lia)) as [-> ->].
      rewrite Z.sub_diag. split; reflexivity.
Qed.

End LineSize.

(** C7: whatever the cache size handed in and whatever the clock reads, a
    value returned by [calcCacheLineSize] is at least [sizeof(void* )]. *)
Theorem calcCacheLineSize_at_least_word
    (clk : clock) (t : nat) (cacheSizeBytes v : Z) :
  calcCacheLineSize clk t cacheSizeBytes = Ok v -> Int.sizeof_ptr <= v.
Proof.
  unfold calcCacheLineSize, calcCacheLineSize_run. intros H.
  apply bind_ok in H as ([trace v'] & Hrun & H). cbn [snd] in H. injection H as <-.
  apply calcCacheLineSize_loop_word in Hrun; [exact Hrun|].
  rewrite vector_max_size_eq. lia.
Qed.

Lemma calcCacheLineSize_at_least_word_witness :
  calcCacheLineSize (fun k => Z.of_nat k * 5) 0 64 = Ok 64
  /\ Int.sizeof_ptr <= 64.
Proof.
  split; [reflexivity|].
  apply (calcCacheLineSize_at_least_word (fun k => Z.of_nat k * 5) 0 64 64).
  reflexivity.
Defined.

(** C3 (amended): when [calcCacheLineSize] returns without having seen a
    maximum jump below a tenth of the one before it, the strides tried are
    the powers of two below the slot count and the value returned is the
    stride the loop stopped at, in bytes: the first power of two that is at
    least the slot count, which was not tried and is twice the final stride
    tried. *)
Theorem calcCacheLineSize_without_drop
    (clk : clock) (t : nat) (cacheSizeBytes : Z) (trace : list (Z * Z)) (v : Z) :
  calcCacheLineSize_run clk t cacheSizeBytes = Ok (trace, v) ->
  no_drop_from Int.LLONG_MAX (map snd trace) = true ->
  calcCacheLineSize clk t cacheSizeBytes = Ok v
  /\ v = exit_stride (cacheSizeBytes / Int.sizeof_ptr) * Int.sizeof_ptr
  /\ map fst trace
     = tabulate (fun i => 2 ^ i) 0 (Z.to_nat (Z.log2_up (cacheSizeBytes / Int.sizeof_ptr)))
  /\ (1 < cacheSizeBytes / Int.sizeof_ptr ->
        (exists tried,
            map fst trace = tried ++ [last_stride_below (cacheSizeBytes / Int.sizeof_ptr)])
        /\ last_stride_below (cacheSizeBytes / Int.sizeof_ptr)
           < cacheSizeBytes / Int.sizeof_ptr
        /\ v = 2 * (last_stride_below (cacheSizeBytes / Int.sizeof_ptr) * Int.sizeof_ptr)).
Proof.
  intros Hrun Hno. unfold calcCacheLineSize. rewrite Hrun. cbn [bind snd].
  split; [reflexivity|].
  unfold calcCacheLineSize_run in Hrun.
  set (size := cacheSizeBytes / Int.sizeof_ptr) in *.
  change 1 with (2 ^ 0) in Hrun.
  apply calcCacheLineSize_loop_no_drop in Hrun as (more & E & Hmore); [|lia|left; reflexivity].
  cbn [app] in E. subst more. destruct (Hmore Hno) as [Hv Hst].
  rewrite Z.sub_0_r in Hst. split; [exact Hv|]. split; [exact Hst|].
  intros Hsize.
  pose proof (Z.log2_up_spec size Hsize) as [Hlo Hhi].
  assert (Hpos : 0 < Z.log2_up size) by (apply Z.log2_up_pos; exact Hsize).
  replace (Z.pred (Z.log2_up size)) with (Z.log2_up size - 1) in Hlo by lia.
  unfold last_stride_below. split; [|split].
  - exists (tabulate (fun i => 2 ^ i) 0 (Z.to_nat (Z.log2_up size - 1))).
    rewrite Hst.
    replace (Z.to_nat (Z.log2_up size)) with (S (Z.to_nat (Z.log2_up size - 1))) by lia.
    rewrite tabulate_snoc. do 3 f_equal. lia.
  - exact Hlo.
  - rewrite Hv. unfold exit_stride.
    replace (Z.log2_up size) with ((Z.log2_up size - 1) + 1) at 1 by lia.
    rewrite pow2_succ by lia. lia.
Qed.

Lemma calcCacheLineSize_without_drop_witness :
  calcCacheLineSize (fun k => Z.of_nat k * 5) 0 128 = Ok 128
  /\ 128 = exit_stride (128 / Int.sizeof_ptr) * Int.sizeof_ptr.
Proof.
  destruct (calcCacheLineSize_without_drop (fun k => Z.of_nat k * 5) 0 128
              [(1, 0); (2, 0); (4, 0); (8, 0)] 128) as (H1 & H2 & _).
  - reflexivity.
  - reflexivity.
  - split; assumption.
Defined.

(** C3 as stated fails: for a 64-byte cache (8 slots) and a clock under which
    every hop takes as long, the strides tried are 1, 2 and 4, no drop is
    seen, and the value returned is 64, not [4 * sizeof(void* ) = 32]. *)
Lemma calcCacheLineSize_returns_untried_stride :
  calcCacheLineSize_run (fun k => Z.of_nat k * 5) 0 64 = Ok ([(1, 0); (2, 0); (4, 0)], 64)
  /\ no_drop_from Int.LLONG_MAX [0; 0; 0] = true
  /\ last_stride_below (64 / Int.sizeof_ptr) = 4
  /\ 64 <> 4 * Int.sizeof_ptr.
Proof. repeat split; try reflexivity. discriminate. Qed.

(** ** The fuel of the loops is enough *)

Lemma hops_total (buf : list ptr) (n : nat) :
  forall pos, hops buf n pos <> OutOfFuel.
Proof.
  induction n as [|n IH]; intros pos; cbn [hops]; [discriminate|].
  destruct (deref_cases buf pos) as [(q & ->)|(why & ->)]; cbn [bind];
    [apply IH|discriminate].
Qed.

Lemma touchTestBuffer_total (buffer : list ptr) (n : Z) :
  touchTestBuffer buffer n <> OutOfFuel.
Proof.
  unfold touchTestBuffer.
  destruct (vec_at_cases buffer (Int.to_size_t (vec_size buffer - 1)))
    as [(pos & ->)| ->]; cbn [bind]; [|discriminate].
  apply bind_not_fuel; [apply hops_total|].
  intros q _. destruct (deref_cases buffer q) as [(r & ->)|(why & ->)]; discriminate.
Qed.

Lemma touchTestBufferTimed_total (clk : clock) (t : nat) (buffer : list ptr) (n : Z) :
  touchTestBufferTimed clk t buffer n <> OutOfFuel.
Proof.
  destruct (Z.le_gt_cases n vector_max_size) as [Hn|Hn].
  - intros E. apply (touchTestBuffer_total buffer n).
    rewrite <- (touchTestBufferTimed_landing clk t buffer n Hn), E. reflexivity.
  - unfold touchTestBufferTimed.
    destruct (vec_at_cases buffer (Int.to_size_t (vec_size buffer - 1)))
      as [(pos & ->)| ->]; cbn [bind]; [|discriminate].
    destruct (Z.ltb_spec vector_max_size n); [discriminate|lia].
Qed.

Lemma probe_round_total (clk : clock) (t : nat) (size : Z) :
  Int.is_size_t size -> probe_round clk t size <> OutOfFuel.
Proof.
  intros Hs. unfold probe_round.
  apply bind_not_fuel.
  - apply mkTestBuffer_total; [exact Hs|].
    unfold Int.is_size_t, probe_stride, nTouches in *. rewrite modulus_eq in *.
    assert (size / 1000000 <= size) by (apply Z.div_le_upper_bound; lia). lia.
  - intros buffer _. apply bind_not_fuel; [apply touchTestBuffer_total|].
    intros p1 _. apply bind_not_fuel; [apply touchTestBuffer_total|].
    discriminate.
Qed.

Lemma tryCacheLevelSizes_loop_total (clk : clock) (maxSize sizeStep : Z) (fuel : nat) :
  forall (t : nat) (size : Z) (infos : list RawLevelInfo) (log : list probe),
    0 <= size -> 0 <= sizeStep < Int.half -> maxSize < Int.half ->
    (sizeStep = 0 /\ size = 0 /\ (0 < fuel)%nat)
    \/ (1 <= sizeStep /\ maxSize - size < Z.of_nat fuel) ->
    snd (tryCacheLevelSizes_loop fuel clk t size maxSize sizeStep infos log) <> OutOfFuel.
Proof.
  induction fuel as [|fuel IH]; intros t size infos log Hs Hst Hmax Hinv;
    cbn [tryCacheLevelSizes_loop];
    destruct (Z.leb_spec size maxSize) as [Hle|Hgt]; cbn [snd]; try discriminate.
  - lia.
  - rewrite half_eq in *.
    pose proof (probe_round_total clk t size
                  ltac:(unfold Int.is_size_t; rewrite modulus_eq; lia)) as Hround.
    destruct (probe_round clk t size) as [[info t']| |why| |] eqn:E; cbn [snd];
      try discriminate; [|congruence].
    destruct Hinv as [(-> & -> & _)|(Hstep & Hfuel)].
    + (* no slot at all: the builder's assertion has stopped the round *)
      unfold probe_round in E. cbn in E. discriminate.
    + apply IH; rewrite ?half_eq;
        rewrite ?to_size_t_id by (unfold Int.is_size_t; rewrite modulus_eq; lia);
        try lia.
Qed.

(** The model of [tryCacheLevelSizes] always gives an outcome of the program. *)
Lemma tryCacheLevelSizes_total (clk : clock) (t : nat) (minSizeBytes maxSizeBytes : Z) :
  Int.is_size_t minSizeBytes -> Int.is_size_t maxSizeBytes ->
  tryCacheLevelSizes clk t minSizeBytes maxSizeBytes <> OutOfFuel.
Proof.
  unfold Int.is_size_t, Int.sizeof_ptr. rewrite modulus_eq. intros Hmin Hmax.
  unfold tryCacheLevelSizes, tryCacheLevelSizes_run, Int.sizeof_ptr.
  assert (0 <= minSizeBytes / 8) by (apply Z.div_pos; lia).
  assert (0 <= maxSizeBytes / 8) by (apply Z.div_pos; lia).
  assert (minSizeBytes / 8 < Int.half)
    by (rewrite half_eq; apply Z.div_lt_upper_bound; lia).
  assert (maxSizeBytes / 8 < Int.half)
    by (rewrite half_eq; apply Z.div_lt_upper_bound; lia).
  apply tryCacheLevelSizes_loop_total; try lia.
Qed.

Lemma selectCacheSize_total (infos : list RawLevelInfo) (windowSize : Z) :
  Int.is_size_t (vec_size infos) -> Int.is_size_t windowSize ->
  selectCacheSize infos windowSize <> OutOfFuel.
Proof.
  intros Hn Hw. destruct (Z.lt_ge_cases windowSize 2) as [Hlt|Hge].
  { unfold selectCacheSize. destruct (Z.leb_spec 2 windowSize); [lia|discriminate]. }
  destruct (Z.lt_ge_cases (vec_size infos) 3) as [Hs|Hs].
  { assert (exists why, selectCacheSize infos windowSize = Undefined why) as [why ->]
      by (apply selectCacheSize_short; assumption).
    discriminate. }
  destruct (Z.le_gt_cases (windowSize + 3) (vec_size infos)) as [Hlen|Hlen].
  - destruct (selectCacheSize_first_max infos windowSize Hn Hw Hge Hlen)
      as (pre & x & post & _ & _ & -> & _). discriminate.
  - destruct (selectCacheSize_empty infos windowSize Hn Hw Hge) as [_ ->];
      [lia|discriminate].
Qed.

Lemma calcCacheLineSize_loop_total (clk : clock) (size : Z) (fuel : nat) :
  forall (t : nat) (k last : Z) (trace : list (Z * Z)),
    Int.is_size_t size ->
    0 <= k -> k = 0 \/ size <= vector_max_size -> 65 <= k + Z.of_nat fuel ->
    calcCacheLineSize_loop fuel clk t size (2 ^ k) last trace <> OutOfFuel.
Proof.
  assert (Hv : vector_max_size = 1152921504606846975) by reflexivity.
  assert (Hsmall : forall k, 0 <= k -> 2 ^ k < size -> size <= vector_max_size -> k < 60).
  { intros k Hk Hlt Hsz. apply (Z.pow_lt_mono_r_iff 2); [lia|lia|].
    change (2 ^ 60) with 1152921504606846976. lia. }
  induction fuel as [|fuel IH]; intros t k last trace Hsz Hk Hprev Hfuel;
    cbn [calcCacheLineSize_loop];
    destruct (Z.ltb_spec (2 ^ k) size) as [Hlt|Hge]; try discriminate.
  - destruct Hprev as [-> | Hprev]; [lia|]. specialize (Hsmall k Hk Hlt Hprev). lia.
  - pose proof (pow2_pos k Hk) as Hp.
    apply bind_not_fuel.
    { apply mkTestBuffer_total; [exact Hsz|]. unfold Int.is_size_t in *. lia. }
    intros buffer Hmk. apply mkTestBuffer_ok_args in Hmk as [Halloc _].
    apply bind_not_fuel; [apply touchTestBufferTimed_total|].
    intros [[times landing] t'] _.
    apply bind_not_fuel; [destruct times; discriminate|].
    intros diffs _. apply bind_not_fuel.
    { destruct (max_element Z.ltb diffs); discriminate. }
    intros m _. destruct (drop_seen last m); [discriminate|].
    rewrite to_size_t_id, <- pow2_succ
      by (try (unfold Int.is_size_t; rewrite modulus_eq); lia).
    apply IH; try lia. exact Hsz.
Qed.

(** The model of [calcCacheLineSize] always gives an outcome of the program. *)
Lemma calcCacheLineSize_total (clk : clock) (t : nat) (cacheSizeBytes : Z) :
  Int.is_size_t cacheSizeBytes ->
  calcCacheLineSize clk t cacheSizeBytes <> OutOfFuel.
Proof.
  unfold Int.is_size_t. rewrite modulus_eq. intros Hb.
  unfold calcCacheLineSize, calcCacheLineSize_run.
  apply bind_not_fuel; [|discriminate].
  change 1 with (2 ^ 0). apply calcCacheLineSize_loop_total; try lia.
  unfold Int.is_size_t, Int.sizeof_ptr. rewrite modulus_eq.
  assert (0 <= cacheSizeBytes / 8) by (apply Z.div_pos; lia).
  assert (cacheSizeBytes / 8 <= cacheSizeBytes) by (apply Z.div_le_upper_bound; lia).
  lia.
Qed.

(** ** Runs of calcCacheLineSize that return *)

(** An iteration over at least two hops of a built chain measures a maximum
    jump. *)
Lemma calcCacheLineSize_iteration (clk : clock) (t : nat) (size step : Z) :
  0 < step -> 2 * step <= size -> size <= vector_max_size ->
  exists buffer times landing m,
    mkTestBuffer size step = Ok buffer
    /\ touchTestBufferTimed clk t buffer (size / step)
       = Ok (times, landing, (t + 2 * Z.to_nat (size / step))%nat)
    /\ (exists diffs, jumps times = Ok diffs /\ max_element Z.ltb diffs = Some m).
Proof.
  intros Hp Hle Ha.
  assert (Hv : vector_max_size = 1152921504606846975) by reflexivity.
  destruct (mkTestBuffer_chain size step) as (buf & Hmk & Hsz & Hch);
    try (rewrite ?half_eq; lia).
  assert (Hn : size / step <= vector_max_size).
  { apply Z.le_trans with size; [apply Z.div_le_upper_bound; nia|exact Ha]. }
  destruct (touchTestBufferTimed_chain size step buf) with (clk := clk) (t := t)
    (n := size / step) as (times & Hrun & Hlen); try (assumption || lia).
  assert (Hq : 2 <= size / step) by (apply Z.div_le_lower_bound; lia).
  destruct times as [|x [|y rest]]; cbn [length] in Hlen; try lia.
  exists buf, (x :: y :: rest), (Slot (cycle_slot size step (Z.of_nat (Z.to_nat (size / step)) + 2))).
  cbn [jumps jumps_from max_element]. eexists. split; [exact Hmk|].
  split; [exact Hrun|]. eexists. split; reflexivity.
Qed.

(** Over a power-of-two slot count every stride tried leaves at least two
    hops, so the run returns whatever the clock reads. *)
Lemma calcCacheLineSize_loop_pow2 (clk : clock) (e : Z) (fuel : nat) :
  forall (t : nat) (k last : Z) (trace : list (Z * Z)),
    0 <= k <= e -> 2 ^ e <= vector_max_size -> e - k < Z.of_nat fuel ->
    exists trace' v,
      calcCacheLineSize_loop fuel clk t (2 ^ e) (2 ^ k) last trace = Ok (trace', v).
Proof.
  assert (Hv : vector_max_size = 1152921504606846975) by reflexivity.
  induction fuel as [|fuel IH]; intros t k last trace Hk Ha Hfuel; [lia|].
  cbn [calcCacheLineSize_loop].
  destruct (Z.ltb_spec (2 ^ k) (2 ^ e)) as [Hlt|Hge]; [|eauto].
  assert (Hke : k < e) by (apply (Z.pow_lt_mono_r_iff 2); lia).
  pose proof (pow2_pos k ltac:(lia)) as Hp.
  assert (Hdouble : 2 * 2 ^ k <= 2 ^ e).
  { rewrite Z.mul_comm, <- pow2_succ by lia. apply Z.pow_le_mono_r; lia. }
  destruct (calcCacheLineSize_iteration clk t (2 ^ e) (2 ^ k) Hp Hdouble Ha)
    as (buffer & times & landing & m & Hmk & Hrun & diffs & Hj & Hmax).
  rewrite Hmk. cbn [bind]. rewrite Hrun. cbn [bind]. rewrite Hj. cbn [bind].
  rewrite Hmax. cbn [bind]. destruct (drop_seen last m); [eauto|].
  rewrite to_size_t_id, <- pow2_succ
    by (try (unfold Int.is_size_t; rewrite modulus_eq); lia).
  apply IH; lia.
Qed.

Lemma calcCacheLineSize_pow2_returns (clk : clock) (t : nat) (e : Z) :
  0 <= e -> 2 ^ e <= vector_max_size ->
  exists v, calcCacheLineSize clk t (2 ^ e * Int.sizeof_ptr) = Ok v.
Proof.
  intros He Ha. unfold calcCacheLineSize, calcCacheLineSize_run.
  rewrite Z.div_mul by discriminate.
  assert (He' : e < 60).
  { apply (Z.pow_lt_mono_r_iff 2); [lia|lia|].
    rewrite vector_max_size_eq in Ha. change (2 ^ 60) with 1152921504606846976. lia. }
  change 1 with (2 ^ 0).
  destruct (calcCacheLineSize_loop_pow2 clk e 65 t 0 Int.LLONG_MAX [])
    as (trace & v & ->); try lia.
  exists v. reflexivity.
Qed.

(** A slot count that is not a power of two leaves a single hop for the last
    stride: there is no jump to take the maximum of. *)
Example calcCacheLineSize_three_slots :
  calcCacheLineSize (fun k => Z.of_nat k * 5) 0 24 = Undefined EmptyRange.
Proof. reflexivity. Qed.

(** * Further properties of the code *)

(** ** The builder: every link stays inside the buffer *)

(** X1: a buffer returned by [mkTestBuffer] has exactly [size] slots, and
    every slot holds null or the address of a slot of the buffer, so a
    traversal can fault on a null pointer only, never on a stray one. *)
Theorem mkTestBuffer_links_inside (size step : Z) (buf : list ptr) :
  Int.is_size_t size -> Int.is_size_t step ->
  mkTestBuffer size step = Ok buf ->
  vec_size buf = size
  /\ (forall (k p : nat), buf !! k = Some (Slot p) -> Z.of_nat p < size)
  /\ (forall p : ptr,
        In p buf -> deref buf p = Undefined NullDeref \/ exists q, deref buf p = Ok q).
Proof.
  intros Hs Hst Hmk. unfold Int.is_size_t in *.
  destruct (mkTestBuffer_ok_args size step buf Hmk) as [Hsz Hp].
  assert (Hshape : vec_size buf = size
                   /\ forall (k p : nat), buf !! k = Some (Slot p) -> Z.of_nat p < size).
  { destruct (Z.lt_ge_cases step size) as [Hlt|Hge].
    - assert (Hll : step < Int.half)
        by (rewrite half_eq; rewrite vector_max_size_eq in Hsz; lia).
      destruct (mkTestBuffer_chain size step Hp Hll ltac:(lia) ltac:(lia) Hlt)
        as (buf' & Hmk' & Hlen & Hch).
      rewrite Hmk in Hmk'. injection Hmk' as <-. split; [exact Hlen|].
      intros k p Hk. apply lookup_lt_Some in Hk as Hkl. unfold vec_size in Hlen.
      rewrite Hch in Hk by lia. injection Hk as Hk.
      unfold chain_link, rewritten, back_link in Hk.
      destruct (Z.leb_spec step (size - 1)); cbn [andb] in Hk; [|discriminate].
      destruct (Z.leb_spec (Z.of_nat k) (size - 1)); cbn [andb] in Hk; [|discriminate].
      destruct (Z.of_nat k mod step =? (size - 1) mod step); [|discriminate].
      destruct (Z.ltb_spec (Z.of_nat k) step); injection Hk as <-; lia.
    - destruct (Z.lt_ge_cases step (Int.half + size)) as [Hsm|Hbig].
      + rewrite mkTestBuffer_null_wide in Hmk by lia. injection Hmk as <-. split.
        * unfold vec_size. rewrite length_replicate. lia.
        * intros k p Hk. apply lookup_replicate_1 in Hk as [Hk _]. discriminate.
      + rewrite mkTestBuffer_huge_step in Hmk by lia. discriminate. }
  destruct Hshape as [Hlen Hin]. split; [exact Hlen|]. split; [exact Hin|].
  intros [|p] Hp'; [left; reflexivity|right].
  apply list_elem_of_In, list_elem_of_lookup in Hp' as (k & Hk).
  apply Hin in Hk. cbn [deref].
  destruct (lookup_lt_is_Some_2 buf p) as (q & ->); [unfold vec_size in Hlen; lia|].
  eauto.
Qed.

Lemma mkTestBuffer_links_inside_witness :
  vec_size [Slot 4; Null; Slot 0; Null; Slot 2] = 5.
Proof.
  apply (mkTestBuffer_links_inside 5 2 [Slot 4; Null; Slot 0; Null; Slot 2]);
    [unfold Int.is_size_t; rewrite modulus_eq; lia..|reflexivity].
Defined.

(** ** The bulk traversal of a built chain *)

(** X2: over a buffer built with [1 <= step < size] the bulk traversal
    never faults; [n] touches return the address of the slot at index
    [size - 1 - ((n + 2) mod len) * step], [len] being the length of the
    cycle, so the result only depends on [n] modulo [len]. *)
Theorem touchTestBuffer_periodic (size step n : Z) :
  1 <= step < size -> size <= vector_max_size -> 0 <= n ->
  exists (buf : list ptr) (landing : nat),
    mkTestBuffer size step = Ok buf
    /\ touchTestBuffer buf n = Ok (Slot landing)
    /\ Z.of_nat landing = size - 1 - ((n + 2) mod cycle_len size step) * step
    /\ touchTestBuffer buf (n + cycle_len size step) = Ok (Slot landing).
Proof.
  intros [Hs Hlt] Ha Hn.
  assert (Hp : 0 < step) by lia.
  assert (Hll : step < Int.half)
    by (rewrite half_eq; rewrite vector_max_size_eq in Ha; lia).
  destruct (mkTestBuffer_chain size step Hp Hll Ha ltac:(lia) Hlt)
    as (buf & Hmk & Hsz & Hch).
  pose proof (cycle_len_ge size step Hp Hlt) as HL.
  exists buf, (cycle_slot size step (n + 2)). split; [exact Hmk|].
  rewrite !(touchTestBuffer_chain size step buf) by assumption.
  rewrite !Z2Nat.id by lia. split; [reflexivity|].
  split; [apply cycle_slot_val; assumption|].
  do 2 f_equal. unfold cycle_slot. do 3 f_equal.
  replace (n + cycle_len size step + 2) with (n + 2 + 1 * cycle_len size step) by lia.
  apply Z.mod_add. lia.
Qed.

Lemma touchTestBuffer_periodic_witness :
  exists (buf : list ptr) (landing : nat),
    mkTestBuffer 5 2 = Ok buf
    /\ touchTestBuffer buf 4 = Ok (Slot landing)
    /\ Z.of_nat landing = 5 - 1 - ((4 + 2) mod cycle_len 5 2) * 2.
Proof.
  destruct (touchTestBuffer_periodic 5 2 4) as (buf & landing & H1 & H2 & H3 & _);
    [lia|rewrite vector_max_size_eq; lia|lia|].
  exists buf, landing. repeat split; assumption.
Defined.

(** ** The clock readings of the timed traversal *)

Lemma timed_hops_readings (clk : clock) (buf : list ptr) (n : nat) :
  forall (t : nat) (pos : ptr) (times times' : list Z) (pos' : ptr) (t' : nat),
    timed_hops clk buf n t pos times = Ok (times', pos', t') ->
    times' = times
             ++ map (fun i => elapsed (clk (t + 2 * i)%nat) (clk (S (t + 2 * i)))) (seq 0 n).
Proof.
  induction n as [|n IH]; intros t pos times times' pos' t'; cbn [timed_hops].
  - intros [= <- _ _]. cbn [seq map]. rewrite app_nil_r. reflexivity.
  - intros H. apply bind_ok in H as (q & _ & H). apply IH in H. subst times'.
    cbn [seq map]. rewrite <- app_assoc. cbn [app]. f_equal.
    replace (t + 2 * 0)%nat with t by lia. f_equal.
    rewrite <- seq_shift, map_map. apply map_ext. intros i.
    replace (S (S t) + 2 * i)%nat with (t + 2 * S i)%nat by lia. reflexivity.
Qed.

(** X3: a timed traversal of [n] hops that returns has read the clock
    exactly twice per hop, and its [i]-th timing is the difference, taken in
    [long long], of the two readings around hop [i]. *)
Theorem touchTestBufferTimed_readings
    (clk : clock) (t : nat) (buffer : list ptr) (n : Z)
    (times : list Z) (landing : ptr) (t' : nat) :
  touchTestBufferTimed clk t buffer n = Ok (times, landing, t') ->
  t' = (t + 2 * Z.to_nat n)%nat
  /\ length times = Z.to_nat n
  /\ forall i : nat, (i < Z.to_nat n)%nat ->
        times !! i = Some (Int.to_llong (clk (S (t + 2 * i)) - clk (t + 2 * i)%nat)).
Proof.
  intros H. destruct (touchTestBufferTimed_times _ _ _ _ _ _ _ H) as [Hlen Ht].
  split; [exact Ht|]. split; [exact Hlen|].
  unfold touchTestBufferTimed in H.
  apply bind_ok in H as (pos & _ & H).
  destruct (vector_max_size <? n); [discriminate|].
  apply bind_ok in H as ([[ts p] t1] & Hh & H).
  apply bind_ok in H as (q & _ & H). injection H as <- _ _.
  apply timed_hops_readings in Hh. cbn [app] in Hh. subst ts.
  intros i Hi. rewrite list_lookup_fmap, lookup_seq_lt by exact Hi.
  reflexivity.
Qed.

Lemma touchTestBufferTimed_readings_witness :
  (7 = 1 + 2 * Z.to_nat 3)%nat
  /\ length [2; 2; 2] = Z.to_nat 3.
Proof.
  destruct (touchTestBufferTimed_readings (fun k => Z.of_nat k * 2) 1
              [Slot 4; Null; Slot 0; Null; Slot 2] 3 [2; 2; 2] (Slot 0) 7)
    as (H1 & H2 & _); [reflexivity|].
  split; assumption.
Defined.

(** ** What a probing run records *)

Lemma rounds_lookup (clk : clock) (sizeStep : Z) (count : nat) :
  forall (t : nat) (size : Z) (k : nat),
    (k < count)%nat ->
    rounds clk count t size sizeStep !! k
    = Some {| arraySizeBytes := (size + Z.of_nat k * sizeStep) * Int.sizeof_ptr;
              timeNanos := elapsed (clk (t + 2 * k)%nat) (clk (S (t + 2 * k))) |}.
Proof.
  induction count as [|c IH]; intros t size k Hk; [lia|].
  destruct k as [|k]; cbn [rounds].
  - cbn [lookup list_lookup]. replace (t + 2 * 0)%nat with t by lia.
    do 3 f_equal. lia.
  - change ((?x :: ?l) !! S k) with (l !! k). rewrite IH by lia.
    replace (S (S t) + 2 * k)%nat with (t + 2 * S k)%nat by lia.
    do 3 f_equal. lia.
Qed.

Lemma tryCacheLevelSizes_rounds (clk : clock) (t : nat) (minSizeBytes maxSizeBytes : Z) :
  2 <= minSizeBytes / Int.sizeof_ptr ->
  0 <= maxSizeBytes -> maxSizeBytes / Int.sizeof_ptr <= vector_max_size ->
  tryCacheLevelSizes clk t minSizeBytes maxSizeBytes
  = Ok (rounds clk
          (Z.to_nat (maxSizeBytes / Int.sizeof_ptr / (minSizeBytes / Int.sizeof_ptr)))
          t (minSizeBytes / Int.sizeof_ptr) (minSizeBytes / Int.sizeof_ptr),
        (t + 2 * Z.to_nat (maxSizeBytes / Int.sizeof_ptr
                           / (minSizeBytes / Int.sizeof_ptr)))%nat).
Proof.
  intros Hmin Hmax0 Hmax.
  assert (Hmax1 : 0 <= maxSizeBytes / Int.sizeof_ptr)
    by (apply Z.div_pos; [exact Hmax0|reflexivity]).
  set (minSize := minSizeBytes / Int.sizeof_ptr) in *.
  set (maxSize := maxSizeBytes / Int.sizeof_ptr) in *.
  assert (Hv : vector_max_size = 1152921504606846975) by reflexivity.
  assert (Hq : 0 <= maxSize / minSize) by (apply Z.div_pos; lia).
  assert (Hq2 : maxSize / minSize <= maxSize) by (apply Z.div_le_upper_bound; nia).
  pose proof (Z.mul_div_le maxSize minSize ltac:(lia)) as Hlo.
  pose proof (Z.mul_succ_div_gt maxSize minSize ltac:(lia)) as Hhi.
  unfold tryCacheLevelSizes, tryCacheLevelSizes_run. fold minSize maxSize.
  destruct (Z.le_gt_cases minSize maxSize) as [Hle|Hgt].
  - rewrite (tryCacheLevelSizes_loop_ok clk maxSize minSize (Z.to_nat (maxSize / minSize)))
      by (try nia; lia).
    reflexivity.
  - rewrite (Z.div_small maxSize minSize) by lia.
    cbn [tryCacheLevelSizes_loop]. destruct (Z.leb_spec minSize maxSize); [lia|].
    change (Z.to_nat 0) with O. cbn [snd rounds].
    replace (t + 2 * 0)%nat with t by lia. reflexivity.
Qed.

(** X4: for a range whose smallest buffer has at least two slots and whose
    largest is allocatable, [tryCacheLevelSizes] returns, whatever the clock
    reads, [maxSize / minSize] points (slot counts); point [k] has the size
    [(k + 1)] times the smallest buffer and the time between the two clock
    readings of round [k], of which there are two per round. *)
Theorem tryCacheLevelSizes_points (clk : clock) (t : nat) (minSizeBytes maxSizeBytes : Z) :
  2 <= minSizeBytes / Int.sizeof_ptr ->
  0 <= maxSizeBytes -> maxSizeBytes / Int.sizeof_ptr <= vector_max_size ->
  exists infos,
    tryCacheLevelSizes clk t minSizeBytes maxSizeBytes
    = Ok (infos, (t + 2 * length infos)%nat)
    /\ vec_size infos
       = maxSizeBytes / Int.sizeof_ptr / (minSizeBytes / Int.sizeof_ptr)
    /\ forall k : nat, (k < length infos)%nat ->
         infos !! k
         = Some {| arraySizeBytes :=
                     (Z.of_nat k + 1) * (minSizeBytes / Int.sizeof_ptr * Int.sizeof_ptr);
                   timeNanos :=
                     Int.to_llong (clk (S (t + 2 * k)) - clk (t + 2 * k)%nat) |}.
Proof.
  intros Hmin Hmax0 Hmax.
  assert (Hq : 0 <= maxSizeBytes / Int.sizeof_ptr / (minSizeBytes / Int.sizeof_ptr)).
  { apply Z.div_pos; [|lia]. apply Z.div_pos; [exact Hmax0|reflexivity]. }
  eexists. rewrite tryCacheLevelSizes_rounds by assumption.
  rewrite rounds_length. split; [reflexivity|]. split.
  - unfold vec_size. rewrite rounds_length. lia.
  - intros k Hk. rewrite rounds_lookup by exact Hk. unfold elapsed.
    f_equal. f_equal. ring.
Qed.

Lemma tryCacheLevelSizes_points_witness :
  exists infos,
    tryCacheLevelSizes (fun k => Z.of_nat k * 7) 0 (8 * KB) (256 * KB)
    = Ok (infos, (0 + 2 * length infos)%nat)
    /\ vec_size infos = 256 * KB / Int.sizeof_ptr / (8 * KB / Int.sizeof_ptr).
Proof.
  destruct (tryCacheLevelSizes_points (fun k => Z.of_nat k * 7) 0 (8 * KB) (256 * KB))
    as (infos & H1 & H2 & _); [cbv; congruence..|].
  exists infos. split; assumption.
Defined.

(** X5: the edges of the probing range.  A smallest size below one slot
    stops the first round on the builder's assertion; a smallest size of
    exactly one slot builds a buffer whose only slot is null, and the
    warm-up traversal dereferences it; a largest size below the smallest
    one probes nothing and returns an empty series without reading the
    clock. *)
Theorem tryCacheLevelSizes_edges (clk : clock) (t : nat) (minSizeBytes maxSizeBytes : Z) :
  Int.is_size_t minSizeBytes -> Int.is_size_t maxSizeBytes ->
  (minSizeBytes < Int.sizeof_ptr ->
     tryCacheLevelSizes clk t minSizeBytes maxSizeBytes = AssertFailed)
  /\ (Int.sizeof_ptr <= minSizeBytes < 2 * Int.sizeof_ptr ->
        Int.sizeof_ptr <= maxSizeBytes ->
        tryCacheLevelSizes clk t minSizeBytes maxSizeBytes = Undefined NullDeref)
  /\ (maxSizeBytes / Int.sizeof_ptr < minSizeBytes / Int.sizeof_ptr ->
        tryCacheLevelSizes clk t minSizeBytes maxSizeBytes = Ok ([], t)).
Proof.
  unfold Int.is_size_t, Int.sizeof_ptr. rewrite modulus_eq. intros Hmin Hmax.
  assert (Hm0 : 0 <= maxSizeBytes / 8) by (apply Z.div_pos; lia).
  unfold tryCacheLevelSizes, tryCacheLevelSizes_run, Int.sizeof_ptr.
  split; [|split].
  - intros Hlt. rewrite (Z.div_small minSizeBytes 8) by lia.
    cbn [tryCacheLevelSizes_loop].
    destruct (Z.leb_spec 0 (maxSizeBytes / 8)); [|lia]. reflexivity.
  - intros Hone Hge.
    assert (H1 : minSizeBytes / 8 = 1)
      by (symmetry; apply (Z.div_unique minSizeBytes 8 1 (minSizeBytes - 8)); lia).
    assert (H2 : 1 <= maxSizeBytes / 8) by (apply Z.div_le_lower_bound; lia).
    rewrite H1. cbn [tryCacheLevelSizes_loop].
    destruct (Z.leb_spec 1 (maxSizeBytes / 8)); [|lia].
    unfold probe_round. change (probe_stride 1) with 1.
    rewrite (mkTestBuffer_null 1 1)
      by (rewrite ?half_eq, ?vector_max_size_eq; lia).
    cbn [bind]. rewrite touchTestBuffer_null by (rewrite vector_max_size_eq; lia).
    reflexivity.
  - intros Hlt. cbn [tryCacheLevelSizes_loop].
    destruct (Z.leb_spec (minSizeBytes / 8) (maxSizeBytes / 8)); [lia|]. reflexivity.
Qed.

Lemma tryCacheLevelSizes_edges_witness :
  tryCacheLevelSizes (fun _ => 0) 0 4 64 = AssertFailed.
Proof.
  destruct (tryCacheLevelSizes_edges (fun _ => 0) 0 4 64) as [H _];
    [unfold Int.is_size_t; rewrite modulus_eq; lia..|].
  apply H. unfold Int.sizeof_ptr. lia.
Defined.

(** ** What selectCacheSize looks at *)

(** X6: with at least [windowSize + 3] raw points, the windowed series is,
    point for point, the rise of the timing over the last [windowSize] raw
    points (in [long long]), for the raw points [windowSize .. size - 3];
    [selectCacheSize] returns the size of the first raw point of that range
    whose rise is largest; the first [windowSize] raw points and the last
    two are never selected. *)
Theorem selectCacheSize_interior_maximum (infos : list RawLevelInfo) (windowSize : Z) :
  Int.is_size_t (vec_size infos) -> Int.is_size_t windowSize -> 2 <= windowSize ->
  windowSize + 3 <= vec_size infos ->
  windowedSeries infos windowSize
  = Ok (tabulate (window_at infos windowSize) windowSize
          (Z.to_nat (vec_size infos - 2 - windowSize)))
  /\ exists p,
       windowSize <= p <= vec_size infos - 3
       /\ selectCacheSize infos windowSize = Ok (arraySizeBytes (info_at infos p))
       /\ forall q, windowSize <= q <= vec_size infos - 3 ->
            timeNanos (window_at infos windowSize q)
            <= timeNanos (window_at infos windowSize p)
            /\ (q < p -> timeNanos (window_at infos windowSize q)
                         < timeNanos (window_at infos windowSize p)).
Proof.
  intros Hn Hw Hw2 Hlen.
  destruct (selectCacheSize_first_max infos windowSize Hn Hw Hw2 Hlen)
    as (pre & x & post & Hser & E & Hsel & Hpre & Hpost).
  split; [rewrite Hser, E; reflexivity|].
  assert (Hcount : (length pre + S (length post))%nat
                   = Z.to_nat (vec_size infos - 2 - windowSize)).
  { apply (f_equal (@length _)) in E.
    rewrite length_app, tabulate_length in E. exact E. }
  assert (Hat : forall i : nat, (i < length pre + S (length post))%nat ->
                  (pre ++ x :: post) !! i
                  = Some (window_at infos windowSize (windowSize + Z.of_nat i))).
  { intros i Hi. rewrite E. apply tabulate_lookup. lia. }
  assert (Hx : x = window_at infos windowSize (windowSize + Z.of_nat (length pre))).
  { specialize (Hat (length pre) ltac:(lia)).
    rewrite list_lookup_middle in Hat by reflexivity. congruence. }
  exists (windowSize + Z.of_nat (length pre)). split; [lia|]. split.
  { rewrite Hsel, Hx. reflexivity. }
  intros q Hq. rewrite <- Hx.
  specialize (Hat (Z.to_nat (q - windowSize)) ltac:(lia)).
  replace (windowSize + Z.of_nat (Z.to_nat (q - windowSize))) with q in Hat by lia.
  destruct (Nat.lt_trichotomy (Z.to_nat (q - windowSize)) (length pre)) as [Hl|[He|Hg]].
  - rewrite lookup_app_l in Hat by exact Hl.
    pose proof (Forall_lookup_1 _ _ _ _ Hpre Hat) as Hlt. cbn beta in Hlt.
    split; [lia|intros _; exact Hlt].
  - rewrite He, list_lookup_middle in Hat by reflexivity.
    injection Hat as <-. split; [lia|lia].
  - rewrite lookup_app_r in Hat by lia.
    destruct (Z.to_nat (q - windowSize) - length pre)%nat as [|j] eqn:Ej; [lia|].
    change ((x :: post) !! S j) with (post !! j) in Hat.
    pose proof (Forall_lookup_1 _ _ _ _ Hpost Hat) as Hle. cbn beta in Hle.
    split; [exact Hle|lia].
Qed.

Lemma selectCacheSize_interior_maximum_witness :
  exists p,
    3 <= p <= 7 - 3
    /\ selectCacheSize
         (map (fun t => {| arraySizeBytes := 8192 * t; timeNanos := t * t |})
            [1; 2; 3; 4; 5; 6; 7]) 3
       = Ok (arraySizeBytes
               (info_at (map (fun t => {| arraySizeBytes := 8192 * t; timeNanos := t * t |})
                           [1; 2; 3; 4; 5; 6; 7]) p)).
Proof.
  destruct (selectCacheSize_interior_maximum
              (map (fun t => {| arraySizeBytes := 8192 * t; timeNanos := t * t |})
                 [1; 2; 3; 4; 5; 6; 7]) 3) as (_ & p & H1 & H2 & _).
  - unfold Int.is_size_t, vec_size. cbn [length map]. rewrite modulus_eq. lia.
  - unfold Int.is_size_t. rewrite modulus_eq. lia.
  - lia.
  - unfold vec_size. cbn [length map]. lia.
  - exists p. split; [exact H1|exact H2].
Defined.

(** ** The selection only sees differences of timings *)

Lemma for_loop_ext {S : Type} (body body' : Z -> S -> outcome S) (n : nat) :
  (forall i s, body i s = body' i s) ->
  forall i s, for_loop n i body s = for_loop n i body' s.
Proof.
  intros Hb. induction n as [|n IH]; intros i s; cbn [for_loop]; [reflexivity|].
  rewrite Hb. destruct (body' i s); cbn [bind]; try reflexivity. apply IH.
Qed.

Lemma vec_at_map {A B : Type} (f : A -> B) (v : list A) (i : Z) :
  vec_at (map f v) i = (x <- vec_at v i ;; Ok (f x)).
Proof.
  unfold vec_at. destruct (i <? 0); [reflexivity|].
  change (map f v) with (f <$> v). rewrite list_lookup_fmap.
  destruct (v !! Z.to_nat i); reflexivity.
Qed.

Lemma diffs_body_shift (c : Z) (infos : list RawLevelInfo) (i : Z)
    (diffs : list RawLevelInfo) :
  diffs_body (map (shift_time c) infos) i diffs = diffs_body infos i diffs.
Proof.
  unfold diffs_body. rewrite !vec_at_map.
  destruct (vec_at infos (i - 1)) as [prev| |why| |]; cbn [bind]; try reflexivity.
  destruct (vec_at infos i) as [curr| |why| |]; cbn [bind]; try reflexivity.
  cbn [shift_time arraySizeBytes timeNanos]. do 5 f_equal. lia.
Qed.

(** X7: adding one constant to every timing (a clock that starts elsewhere)
    changes neither the windowed series nor the size selected, for any
    series and window, faults included. *)
Theorem selectCacheSize_shift_invariant
    (c : Z) (infos : list RawLevelInfo) (windowSize : Z) :
  windowedSeries (map (shift_time c) infos) windowSize = windowedSeries infos windowSize
  /\ selectCacheSize (map (shift_time c) infos) windowSize
     = selectCacheSize infos windowSize.
Proof.
  assert (H : windowedSeries (map (shift_time c) infos) windowSize
              = windowedSeries infos windowSize).
  { unfold windowedSeries, for_range.
    assert (Hsz : vec_size (map (shift_time c) infos) = vec_size infos)
      by (unfold vec_size; rewrite length_map; reflexivity).
    rewrite Hsz.
    rewrite (for_loop_ext _ (diffs_body infos)) by (apply diffs_body_shift).
    reflexivity. }
  split; [exact H|]. unfold selectCacheSize. rewrite H. reflexivity.
Qed.

(** ** What calcCacheLineSize returns *)

(** A stride that leaves a single hop has no jump to compare. *)
Lemma calcCacheLineSize_single_hop (fuel : nat) (clk : clock) (t : nat)
    (size step last : Z) (trace : list (Z * Z)) :
  0 < step -> step < size < 2 * step -> size <= vector_max_size ->
  calcCacheLineSize_loop (S fuel) clk t size step last trace = Undefined EmptyRange.
Proof.
  intros Hp Hsz Ha.
  assert (Hv : vector_max_size = 1152921504606846975) by reflexivity.
  cbn [calcCacheLineSize_loop]. destruct (Z.ltb_spec step size); [|lia].
  destruct (mkTestBuffer_chain size step) as (buf & Hmk & Hlen & Hch);
    try (rewrite ?half_eq; lia).
  rewrite Hmk. cbn [bind].
  assert (Hone : size / step = 1)
    by (symmetry; apply (Z.div_unique size step 1 (size - step)); lia).
  destruct (touchTestBufferTimed_chain size step buf) with (clk := clk) (t := t)
    (n := size / step) as (times & Hrun & Hl); try (assumption || lia).
  rewrite Hrun. cbn [bind]. rewrite Hone in Hl.
  destruct times as [|x [|y rest]]; cbn [length] in Hl; try (cbn in Hl; lia).
  reflexivity.
Qed.

Lemma calcCacheLineSize_step_two_hops (fuel : nat) (clk : clock) (t : nat)
    (size step last : Z) (trace trace' : list (Z * Z)) (v : Z) :
  0 < step -> step < size ->
  calcCacheLineSize_loop (S fuel) clk t size step last trace = Ok (trace', v) ->
  2 * step <= size.
Proof.
  intros Hp Hlt Hrun.
  destruct (calcCacheLineSize_loop_step _ _ _ _ _ _ _ _ _ Hlt Hrun) as [Hsz _].
  destruct (Z.le_gt_cases (2 * step) size) as [Hle|Hgt]; [exact Hle|].
  rewrite calcCacheLineSize_single_hop in Hrun by lia. discriminate.
Qed.

Lemma drop_seen_sentinel (m : Z) : drop_seen Int.LLONG_MAX m = false.
Proof. unfold drop_seen. rewrite Z.eqb_refl. reflexivity. Qed.

Lemma calcCacheLineSize_loop_value (clk : clock) (size : Z) (fuel : nat) :
  forall (t : nat) (k last : Z) (trace trace' : list (Z * Z)) (v : Z),
    (k = 0 /\ last = Int.LLONG_MAX)
    \/ (1 <= k /\ size <= vector_max_size /\ 2 ^ k <= size) ->
    calcCacheLineSize_loop fuel clk t size (2 ^ k) last trace = Ok (trace', v) ->
    exists j,
      k <= j /\ v = 2 ^ j * Int.sizeof_ptr
      /\ (j = 0 -> size <= 1) /\ (1 <= j -> 2 ^ j <= size).
Proof.
  assert (Hv : vector_max_size = 1152921504606846975) by reflexivity.
  assert (Hexit : forall k, (k = 0 /\ True) \/ (1 <= k /\ size <= vector_max_size
                                               /\ 2 ^ k <= size) ->
                    (size <= 2 ^ k \/ 1 <= k) ->
                    exists j, k <= j
                      /\ Int.to_size_t (2 ^ k * Int.sizeof_ptr) = 2 ^ j * Int.sizeof_ptr
                      /\ (j = 0 -> size <= 1) /\ (1 <= j -> 2 ^ j <= size)).
  { intros k Hinv Hcase. exists k. split; [lia|].
    destruct Hinv as [[-> _]|(Hk & Ha & Hle)].
    - destruct Hcase as [Hc|Hc]; [|lia]. cbn in Hc.
      split; [reflexivity|]. split; [intros _; exact Hc|lia].
    - pose proof (pow2_pos k ltac:(lia)).
      rewrite to_size_t_id
        by (unfold Int.is_size_t, Int.sizeof_ptr; rewrite modulus_eq; lia).
      split; [reflexivity|]. split; [lia|intros _; exact Hle]. }
  induction fuel as [|fuel IH]; intros t k last trace trace' v Hinv Hrun.
  - cbn [calcCacheLineSize_loop] in Hrun.
    destruct (Z.ltb_spec (2 ^ k) size); [discriminate|].
    injection Hrun as _ <-. apply Hexit; [|left; assumption].
    destruct Hinv as [[-> _]|H']; [left; auto|right; exact H'].
  - assert (Hk : 0 <= k) by (destruct Hinv as [[-> _]|(? & _)]; lia).
    pose proof (pow2_pos k Hk) as Hp.
    destruct (Z.lt_ge_cases (2 ^ k) size) as [Hlt|Hge].
    + pose proof (calcCacheLineSize_step_two_hops _ _ _ _ _ _ _ _ _ Hp Hlt Hrun) as Htwo.
      destruct (calcCacheLineSize_loop_step _ _ _ _ _ _ _ _ _ Hlt Hrun)
        as (Hsz & m & t' & [(Hdrop & _ & ->)|(_ & Hrun')]).
      * destruct Hinv as [[-> ->]|H'].
        { rewrite drop_seen_sentinel in Hdrop. discriminate. }
        apply Hexit; [right; exact H'|right; lia].
      * rewrite to_size_t_id, <- pow2_succ in Hrun'
          by (try (unfold Int.is_size_t; rewrite modulus_eq); lia).
        apply IH in Hrun' as (j & Hj & Hrest).
        -- exists j. split; [lia|exact Hrest].
        -- right. rewrite pow2_succ by lia. lia.
    + cbn [calcCacheLineSize_loop] in Hrun.
      destruct (Z.ltb_spec (2 ^ k) size); [lia|].
      injection Hrun as _ <-. apply Hexit; [|left; assumption].
      destruct Hinv as [[-> _]|H']; [left; auto|right; exact H'].
Qed.

(** X8: a value returned by [calcCacheLineSize] is a power-of-two number of
    slots, in bytes.  It is 8 only when the cache size handed in has at most
    one slot; otherwise it is at least 16 and at most the cache size handed
    in. *)
Theorem calcCacheLineSize_value (clk : clock) (t : nat) (cacheSizeBytes v : Z) :
  calcCacheLineSize clk t cacheSizeBytes = Ok v ->
  exists j,
    0 <= j /\ v = 2 ^ j * Int.sizeof_ptr
    /\ (j = 0 -> cacheSizeBytes / Int.sizeof_ptr <= 1)
    /\ (1 <= j -> 2 * Int.sizeof_ptr <= v <= cacheSizeBytes).
Proof.
  unfold calcCacheLineSize, calcCacheLineSize_run. intros H.
  apply bind_ok in H as ([trace v'] & Hrun & H). cbn [snd] in H. injection H as <-.
  change 1 with (2 ^ 0) in Hrun.
  apply calcCacheLineSize_loop_value in Hrun as (j & Hj & -> & H0 & H1);
    [|left; split; reflexivity].
  exists j. split; [exact Hj|]. split; [reflexivity|]. split; [exact H0|].
  intros Hj1. specialize (H1 Hj1). unfold Int.sizeof_ptr in *.
  assert (2 <= 2 ^ j).
  { change 2 with (2 ^ 1) at 1. apply Z.pow_le_mono_r; lia. }
  pose proof (Z.mul_div_le cacheSizeBytes 8 ltac:(lia)). lia.
Qed.

Lemma calcCacheLineSize_value_witness :
  exists j, 0 <= j /\ 64 = 2 ^ j * Int.sizeof_ptr.
Proof.
  destruct (calcCacheLineSize_value (fun k => Z.of_nat k * 5) 0 64 64)
    as (j & H1 & H2 & _); [reflexivity|].
  exists j. split; assumption.
Defined.

(** ** The stride at which a drop is seen *)

Lemma calcCacheLineSize_loop_drop (clk : clock) (size : Z) (fuel : nat) :
  forall (t : nat) (k last : Z) (trace trace' : list (Z * Z)) (v : Z),
    0 <= k -> k = 0 \/ 2 ^ (k - 1) < size <= vector_max_size ->
    calcCacheLineSize_loop fuel clk t size (2 ^ k) last trace = Ok (trace', v) ->
    exists more,
      trace' = trace ++ more
      /\ (no_drop_from last (map snd more) = false ->
            exists init m,
              more = init ++ [(2 ^ (k + Z.of_nat (length init)), m)]
              /\ no_drop_from last (map snd init) = true
              /\ drop_seen (last_jump last (map snd init)) m = true
              /\ v = 2 ^ (k + Z.of_nat (length init)) * Int.sizeof_ptr
              /\ 2 ^ (k + Z.of_nat (length init)) < size).
Proof.
  assert (Hv : vector_max_size = 1152921504606846975) by reflexivity.
  induction fuel as [|fuel IH]; intros t k last trace trace' v Hk Hprev Hrun.
  - cbn [calcCacheLineSize_loop] in Hrun.
    destruct (Z.ltb_spec (2 ^ k) size); [discriminate|].
    injection Hrun as <- _. exists []. rewrite app_nil_r. split; [reflexivity|].
    cbn [map no_drop_from]. discriminate.
  - destruct (Z.lt_ge_cases (2 ^ k) size) as [Hlt|Hge].
    + pose proof (pow2_pos k Hk) as Hp.
      destruct (calcCacheLineSize_loop_step _ _ _ _ _ _ _ _ _ Hlt Hrun)
        as (Hsz & m & t' & [(Hdrop & -> & ->)|(Hdrop & Hrun')]).
      * exists [(2 ^ k, m)]. split; [reflexivity|]. intros _.
        exists [], m. cbn [length app map no_drop_from last_jump].
        rewrite Z.add_0_r. split; [reflexivity|]. split; [reflexivity|].
        split; [exact Hdrop|]. split; [|exact Hlt].
        apply to_size_t_id. unfold Int.is_size_t, Int.sizeof_ptr. rewrite modulus_eq. lia.
      * rewrite to_size_t_id, <- pow2_succ in Hrun'
          by (try (unfold Int.is_size_t; rewrite modulus_eq); lia).
        apply IH in Hrun' as (more & -> & Hmore);
          [|lia|right; replace (k + 1 - 1) with k by lia; lia].
        exists ((2 ^ k, m) :: more). rewrite <- app_assoc. split; [reflexivity|].
        cbn [map snd no_drop_from]. rewrite Hdrop. cbn [negb andb]. intros Hno.
        destruct (Hmore Hno) as (init & m' & -> & Hinit & Hd & -> & Hs).
        exists ((2 ^ k, m) :: init), m'. cbn [length app map snd no_drop_from last_jump].
        rewrite Hdrop. cbn [negb andb].
        replace (k + Z.of_nat (S (length init))) with (k + 1 + Z.of_nat (length init))
          by lia.
        repeat split; assumption.
    + cbn [calcCacheLineSize_loop] in Hrun.
      destruct (Z.ltb_spec (2 ^ k) size); [lia|].
      injection Hrun as <- _. exists []. rewrite app_nil_r. split; [reflexivity|].
      cbn [map no_drop_from]. discriminate.
Qed.

(** X9: when some stride shows a maximum jump below a tenth of the one
    before it, [calcCacheLineSize] stops at the first such stride and
    returns it in bytes; the first stride tried is never that one, since it
    has no stride before it. *)
Theorem calcCacheLineSize_first_drop
    (clk : clock) (t : nat) (cacheSizeBytes : Z) (trace : list (Z * Z)) (v : Z) :
  calcCacheLineSize_run clk t cacheSizeBytes = Ok (trace, v) ->
  no_drop_from Int.LLONG_MAX (map snd trace) = false ->
  exists init m,
    trace = init ++ [(2 ^ Z.of_nat (length init), m)]
    /\ (1 <= length init)%nat
    /\ no_drop_from Int.LLONG_MAX (map snd init) = true
    /\ drop_seen (last_jump Int.LLONG_MAX (map snd init)) m = true
    /\ v = 2 ^ Z.of_nat (length init) * Int.sizeof_ptr
    /\ 2 ^ Z.of_nat (length init) < cacheSizeBytes / Int.sizeof_ptr.
Proof.
  intros Hrun Hno. unfold calcCacheLineSize_run in Hrun.
  change 1 with (2 ^ 0) in Hrun.
  apply calcCacheLineSize_loop_drop in Hrun as (more & E & Hmore);
    [|lia|left; reflexivity].
  cbn [app] in E. subst more.
  destruct (Hmore Hno) as (init & m & -> & Hinit & Hd & -> & Hs).
  rewrite Z.add_0_l in *. exists init, m.
  split; [reflexivity|]. split.
  - destruct init as [|x init]; [|cbn [length]; lia].
    cbn [map last_jump] in Hd. rewrite drop_seen_sentinel in Hd. discriminate.
  - repeat split; assumption.
Qed.

Lemma calcCacheLineSize_first_drop_witness :
  exists init m,
    [(1, 100); (2, 1)] = init ++ [(2 ^ Z.of_nat (length init), m)]
    /\ 16 = 2 ^ Z.of_nat (length init) * Int.sizeof_ptr.
Proof.
  destruct (calcCacheLineSize_first_drop
              (fun k => nth k [0; 0; 0; 100; 0; 100; 0; 100; 0; 5; 0; 6] 0) 0 32
              [(1, 100); (2, 1)] 16)
    as (init & m & H1 & _ & _ & _ & H2 & _); [reflexivity..|].
  exists init, m. split; assumption.
Defined.

(** ** How calcCacheLineSize can end *)

Lemma calcCacheLineSize_loop_outcomes (clk : clock) (size : Z) (fuel : nat) :
  forall (t : nat) (k last : Z) (trace : list (Z * Z)),
    0 <= k -> 0 <= size -> k = 0 \/ size <= vector_max_size ->
    (exists r, calcCacheLineSize_loop fuel clk t size (2 ^ k) last trace = Ok r)
    \/ calcCacheLineSize_loop fuel clk t size (2 ^ k) last trace = Undefined EmptyRange
    \/ calcCacheLineSize_loop fuel clk t size (2 ^ k) last trace = OutOfFuel
    \/ (calcCacheLineSize_loop fuel clk t size (2 ^ k) last trace = Thrown
        /\ vector_max_size < size).
Proof.
  assert (Hv : vector_max_size = 1152921504606846975) by reflexivity.
  induction fuel as [|fuel IH]; intros t k last trace Hk Hs Hprev.
  - cbn [calcCacheLineSize_loop]. destruct (2 ^ k <? size); eauto.
  - pose proof (pow2_pos k Hk) as Hp.
    destruct (Z.lt_ge_cases (2 ^ k) size) as [Hlt|Hge].
    2:{ cbn [calcCacheLineSize_loop]. destruct (Z.ltb_spec (2 ^ k) size); [lia|eauto]. }
    destruct (Z.le_gt_cases size vector_max_size) as [Ha|Ha].
    + destruct (Z.le_gt_cases (2 * 2 ^ k) size) as [Htwo|Hone].
      * cbn [calcCacheLineSize_loop]. destruct (Z.ltb_spec (2 ^ k) size); [|lia].
        destruct (calcCacheLineSize_iteration clk t size (2 ^ k) Hp Htwo Ha)
          as (buffer & times & landing & m & Hmk & Hrun & diffs & Hj & Hmax).
        rewrite Hmk. cbn [bind]. rewrite Hrun. cbn [bind]. rewrite Hj. cbn [bind].
        rewrite Hmax. cbn [bind]. destruct (drop_seen last m); [eauto|].
        rewrite to_size_t_id, <- pow2_succ
          by (try (unfold Int.is_size_t; rewrite modulus_eq); lia).
        apply IH; [lia|exact Hs|right; exact Ha].
      * right. left. apply calcCacheLineSize_single_hop; lia.
    + right. right. right. split; [|exact Ha].
      destruct Hprev as [-> |]; [|lia].
      cbn [calcCacheLineSize_loop]. destruct (Z.ltb_spec (2 ^ 0) size); [|cbn in *; lia].
      unfold mkTestBuffer.
      destruct (Z.ltb_spec 0 size); [|lia]. cbn [andb negb Z.ltb Z.pow Z.pow_pos].
      change (0 <? 2 ^ 0) with true. cbn [andb negb].
      destruct (Z.ltb_spec vector_max_size size); [reflexivity|lia].
Qed.

Lemma calcCacheLineSize_cases (clk : clock) (t : nat) (cacheSizeBytes : Z) :
  Int.is_size_t cacheSizeBytes ->
  (exists v, calcCacheLineSize clk t cacheSizeBytes = Ok v)
  \/ calcCacheLineSize clk t cacheSizeBytes = Undefined EmptyRange
  \/ (calcCacheLineSize clk t cacheSizeBytes = Thrown
      /\ vector_max_size < cacheSizeBytes / Int.sizeof_ptr).
Proof.
  intros Hb.
  pose proof (calcCacheLineSize_total clk t cacheSizeBytes Hb) as Htot.
  unfold calcCacheLineSize, calcCacheLineSize_run in *.
  assert (Hs : 0 <= cacheSizeBytes / Int.sizeof_ptr).
  { apply Z.div_pos; [unfold Int.is_size_t in Hb; lia|reflexivity]. }
  change 1 with (2 ^ 0) in *.
  destruct (calcCacheLineSize_loop_outcomes clk (cacheSizeBytes / Int.sizeof_ptr) 65
              t 0 Int.LLONG_MAX [] ltac:(lia) Hs ltac:(left; reflexivity))
    as [([trace v] & E)|[E|[E|[E Ha]]]]; rewrite E in *; cbn [bind] in *.
  - left. eauto.
  - right. left. reflexivity.
  - contradiction.
  - right. right. split; [reflexivity|exact Ha].
Qed.

(** X10: how [calcCacheLineSize] ends when its allocations succeed.  For a
    slot count within the largest vector size it returns, or takes the
    maximum of an empty series of jumps (a stride that leaves a single
    hop): it never trips the builder's assertion and never follows a null
    or stray pointer, and for a power-of-two slot count it always returns.
    For a larger slot count the vector constructor throws in the first
    iteration. *)
Theorem calcCacheLineSize_outcomes (clk : clock) (t : nat) (cacheSizeBytes : Z) :
  Int.is_size_t cacheSizeBytes ->
  (cacheSizeBytes / Int.sizeof_ptr <= vector_max_size ->
     ((exists v, calcCacheLineSize clk t cacheSizeBytes = Ok v)
      \/ calcCacheLineSize clk t cacheSizeBytes = Undefined EmptyRange)
     /\ (forall e, 0 <= e -> cacheSizeBytes / Int.sizeof_ptr = 2 ^ e ->
           exists v, calcCacheLineSize clk t cacheSizeBytes = Ok v))
  /\ (vector_max_size < cacheSizeBytes / Int.sizeof_ptr ->
        calcCacheLineSize clk t cacheSizeBytes = Thrown).
Proof.
  intros Hb. split.
  - intros Ha. split.
    + destruct (calcCacheLineSize_cases clk t cacheSizeBytes Hb) as [H|[H|[_ H]]];
        [left; exact H|right; exact H|lia].
    + intros e He Hsize. unfold calcCacheLineSize, calcCacheLineSize_run.
      rewrite Hsize in *.
      assert (He' : e < 60).
      { apply (Z.pow_lt_mono_r_iff 2); [lia|lia|].
        rewrite vector_max_size_eq in Ha. change (2 ^ 60) with 1152921504606846976. lia. }
      change 1 with (2 ^ 0).
      destruct (calcCacheLineSize_loop_pow2 clk e 65 t 0 Int.LLONG_MAX [])
        as (trace & v & ->); try lia.
      exists v. reflexivity.
  - intros Ha. unfold calcCacheLineSize, calcCacheLineSize_run.
    set (size := cacheSizeBytes / Int.sizeof_ptr) in *.
    change 65%nat with (S 64). cbn [calcCacheLineSize_loop].
    rewrite vector_max_size_eq in Ha.
    destruct (Z.ltb_spec 1 size); [|lia].
    unfold mkTestBuffer. destruct (Z.ltb_spec 0 size); [|lia].
    change (0 <? 1) with true. cbn [andb negb].
    rewrite vector_max_size_eq.
    destruct (Z.ltb_spec 1152921504606846975 size); [reflexivity|lia].
Qed.

Lemma calcCacheLineSize_outcomes_witness :
  exists v, calcCacheLineSize (fun k => Z.of_nat k * 5) 0 (32 * KB) = Ok v.
Proof.
  destruct (calcCacheLineSize_outcomes (fun k => Z.of_nat k * 5) 0 (32 * KB)) as [H _].
  - unfold Int.is_size_t, KB. rewrite modulus_eq. lia.
  - destruct H as [_ H]; [rewrite vector_max_size_eq; cbv; congruence|].
    apply (H 12); [lia|reflexivity].
Defined.

(** ** The slots a probing traversal touches *)

Lemma probe_cycle_len (size : Z) :
  nTouches <= size ->
  nTouches <= cycle_len size (probe_stride size) < 2 * nTouches.
Proof.
  unfold probe_stride, cycle_len, nTouches. intros Hs.
  assert (Hq : 1 <= size / 1000000) by (apply Z.div_le_lower_bound; lia).
  pose proof (Z.mul_div_le size 1000000 ltac:(lia)) as Hlo.
  pose proof (Z.mul_succ_div_gt size 1000000 ltac:(lia)) as Hhi.
  rewrite Z.max_r by lia.
  assert (999999 <= (size - 1) / (size / 1000000))
    by (apply Z.div_le_lower_bound; lia).
  assert ((size - 1) / (size / 1000000) < 1999999)
    by (apply Z.div_lt_upper_bound; lia).
  lia.
Qed.

(** X11: the stride chosen for a probing round makes the chain fit the
    touches.  Below 1,000,000 slots the stride is 1 and the chain runs
    through every slot; from 1,000,000 slots on the chain has at least
    1,000,000 and fewer than 2,000,000 slots, so the touches of one
    traversal never meet a slot twice. *)
Theorem probe_chain_fits_touches (size : Z) :
  2 <= size <= vector_max_size ->
  exists buf,
    mkTestBuffer size (probe_stride size) = Ok buf
    /\ (size < nTouches ->
          probe_stride size = 1 /\ cycle_len size (probe_stride size) = size)
    /\ (nTouches <= size ->
          nTouches <= cycle_len size (probe_stride size) < 2 * nTouches
          /\ forall m n : nat, (m < n)%nat -> Z.of_nat n < nTouches ->
               hops buf m (entry size) <> hops buf n (entry size)).
Proof.
  intros Hs.
  assert (Hv : vector_max_size = 1152921504606846975) by reflexivity.
  pose proof (probe_stride_bounds size ltac:(lia)) as Hb.
  pose proof (probe_stride_lt size ltac:(lia)) as Hlt.
  destruct (mkTestBuffer_chain size (probe_stride size)) as (buf & Hmk & Hsz & Hch);
    try (rewrite ?half_eq; lia).
  exists buf. split; [exact Hmk|]. split.
  - intros Hsmall.
    assert (H1 : probe_stride size = 1).
    { unfold probe_stride. unfold nTouches in *. rewrite Z.div_small by lia.
      reflexivity. }
    rewrite H1. split; [reflexivity|]. apply cycle_len_full; lia.
  - intros Hbig. pose proof (probe_cycle_len size Hbig) as HL.
    split; [exact HL|]. intros m n Hmn Hn.
    rewrite <- (cycle_slot_0 size (probe_stride size)) by lia.
    apply (hops_no_repeat size (probe_stride size) buf); (assumption || lia).
Qed.

Lemma probe_chain_fits_touches_witness :
  exists buf, mkTestBuffer (4 * KB) (probe_stride (4 * KB)) = Ok buf
              /\ probe_stride (4 * KB) = 1.
Proof.
  destruct (probe_chain_fits_touches (4 * KB)) as (buf & H1 & H2 & _).
  - rewrite vector_max_size_eq. unfold KB. lia.
  - exists buf. split; [exact H1|]. apply H2. unfold nTouches, KB. lia.
Defined.

(** ** main *)

Lemma arraySizeBytes_info_at (infos : list RawLevelInfo) (p : Z) :
  arraySizeBytes (info_at infos p) = nth (Z.to_nat p) (map arraySizeBytes infos) 0.
Proof.
  unfold info_at. symmetry.
  exact (map_nth arraySizeBytes infos {| arraySizeBytes := 0; timeNanos := 0 |}
           (Z.to_nat p)).
Qed.

(** X12: whatever the clock reads, [main] never aborts on an assertion,
    never fails to allocate and never follows a null or stray pointer: it
    either returns or takes the maximum of an empty series of jumps inside
    [calcCacheLineSize].  When it returns, the exit code is 0, it has
    recorded the 32 multiples of 8 KiB, the cache size is one of the
    multiples 4 .. 30 of 8 KiB, and the line size is a power of two of at
    least 16 bytes and at most the cache size. *)
Theorem main_outcomes (clk : clock) :
  ((exists r, main clk = Ok r) \/ main clk = Undefined EmptyRange)
  /\ forall r, main clk = Ok r ->
       exitCode r = 0
       /\ map arraySizeBytes (rawLevels r) = tabulate (fun k => k * (8 * KB)) 1 32
       /\ (exists p, 4 <= p <= 30 /\ cacheSize r = p * (8 * KB))
       /\ (exists j, 1 <= j /\ cacheLineSize r = 2 ^ j * Int.sizeof_ptr)
       /\ cacheLineSize r <= cacheSize r.
Proof.
  destruct (tryCacheLevelSizes_default_range clk 0) as (infos & Hrun & Hlen & Hsizes & _).
  assert (Hn : vec_size infos = 32) by (unfold vec_size; rewrite Hlen; reflexivity).
  assert (Hprobed : exists s p,
             selectCacheSize infos 3 = Ok s
             /\ 3 <= p <= vec_size infos - 3
             /\ s = arraySizeBytes (info_at infos p)
             /\ In s (map arraySizeBytes infos)).
  { apply selectCacheSize_probed;
      unfold Int.is_size_t; rewrite ?Hn, ?modulus_eq; lia. }
  destruct Hprobed as (s & p & Hsel & Hp & Hs & _). rewrite Hn in Hp.
  assert (Hsp : s = (p + 1) * (8 * KB)).
  { rewrite Hs, arraySizeBytes_info_at, Hsizes.
    rewrite (nth_lookup_Some _ _ _ ((1 + Z.of_nat (Z.to_nat p)) * (8 * KB)))
      by (apply tabulate_lookup; lia).
    f_equal. lia. }
  assert (Hmain : main clk
                  = (v <- calcCacheLineSize clk 64 s ;;
                     Ok {| rawLevels := infos; cacheSize := s;
                           cacheLineSize := v; exitCode := 0 |})).
  { unfold main. rewrite Hrun. cbn [bind Nat.add]. rewrite Hsel. reflexivity. }
  assert (Hsize : Int.is_size_t s).
  { unfold Int.is_size_t, KB in *. rewrite modulus_eq. lia. }
  split.
  - rewrite Hmain.
    destruct (calcCacheLineSize_cases clk 64 s Hsize) as [(v & ->)|[-> |[_ Ha]]].
    { left. eexists. reflexivity. }
    { right. reflexivity. }
    exfalso. rewrite vector_max_size_eq, Hsp in Ha. unfold KB, Int.sizeof_ptr in Ha.
    assert ((p + 1) * (8 * 1024) / 8 <= (p + 1) * (8 * 1024))
      by (apply Z.div_le_upper_bound; lia).
    lia.
  - intros r Hr. rewrite Hmain in Hr. apply bind_ok in Hr as (v & Hv & Hr).
    injection Hr as <-. cbn [exitCode rawLevels cacheSize cacheLineSize].
    split; [reflexivity|]. split; [exact Hsizes|]. split.
    { exists (p + 1). split; [lia|exact Hsp]. }
    unfold calcCacheLineSize, calcCacheLineSize_run in Hv.
    apply bind_ok in Hv as ([trace v'] & Hloop & Hv). cbn [snd] in Hv. injection Hv as <-.
    change 1 with (2 ^ 0) in Hloop.
    apply calcCacheLineSize_loop_value in Hloop as (j & Hj & -> & H0 & H1);
      [|left; split; reflexivity].
    assert (Hslots : s / Int.sizeof_ptr = (p + 1) * KB).
    { rewrite Hsp. unfold Int.sizeof_ptr.
      replace ((p + 1) * (8 * KB)) with ((p + 1) * KB * 8) by lia.
      apply Z.div_mul. discriminate. }
    assert (Hj1 : 1 <= j).
    { destruct (Z.eq_dec j 0) as [Hj0|]; [|lia].
      specialize (H0 Hj0). rewrite Hslots in H0. unfold KB in H0. lia. }
    split; [exists j; split; [exact Hj1|reflexivity]|].
    specialize (H1 Hj1). rewrite Hslots in H1. rewrite Hsp. unfold Int.sizeof_ptr. lia.
Qed.
